(** * lazyerrors: error wrapping with a single, lazily rendered location

    A shallow embedding of the Go package [github.com/AlekSi/lazyerrors]
    (files [lazyerror.go], [lazyerrors.go], [errors.go]) and the properties of
    its specification. The source holds two revisions of [lazyerror.go]; the
    embedding follows the one with [loc] and [shorten], and [shortPath], which
    the tests call, is the same function in the other.

    Conventions of the embedding:
    - a Go [string] is a [string] of bytes; [int] and [uintptr] are [Z] (every
      integer operation of the package stays far from the 64-bit bounds, see
      [shorten]);
    - a run-time panic is the [Panic] outcome of [result];
    - the package-level variables [FileSegments], [FunctionSegments] and
      [Format] are the record [vars], passed explicitly to whoever reads them;
    - the call stack, which [runtime.Callers] inspects, is a list of program
      counters passed explicitly to the constructors;
    - what belongs to Go's standard library and to the running binary
      ([fmt.Sprintf], [fmt.Errorf], the symbol table behind
      [runtime.CallersFrames], code addresses) is a [Variable] of a section. *)

From Stdlib Require Import ZArith List String Ascii Bool Lia.
From Stdlib Require Import DecimalString.
Import ListNotations.

Local Open Scope string_scope.
Local Open Scope Z_scope.

(** ** Outcomes of Go computations *)

Inductive result (A : Type) : Type :=
| Ok (a : A)
| Panic (v : string).

Arguments Ok {A} a.
Arguments Panic {A} v.

Definition bind {A B : Type} (r : result A) (k : A -> result B) : result B :=
  match r with
  | Ok a => k a
  | Panic v => Panic v
  end.

Notation "x <- r ;; k" := (bind r (fun x => k))
  (at level 61, r at next level, right associativity).

(** ** Built-in operations on strings and slices *)

Module builtin.

(** [len(s)] *)
Definition len (s : string) : Z := Z.of_nat (String.length s).

Fixpoint drop (n : nat) (s : string) : string :=
  match n, s with
  | O, _ => s
  | S _, EmptyString => EmptyString
  | S n', String _ s' => drop n' s'
  end.

(** [s[i:]]: panics unless [0 <= i <= len(s)]. *)
Definition slice_from (s : string) (i : Z) : result string :=
  if (i <? 0) || (len s <? i)
  then Panic "slice bounds out of range"
  else Ok (drop (Z.to_nat i) s).

(** [p[i:]] on a slice of strings: panics unless [0 <= i <= len(p)]. *)
Definition slice_list_from {A : Type} (p : list A) (i : Z) : result (list A) :=
  if (i <? 0) || (Z.of_nat (List.length p) <? i)
  then Panic "slice bounds out of range"
  else Ok (skipn (Z.to_nat i) p).

End builtin.

(** ** Package [strings] (the functions [shorten] calls) *)

Module strings.

(** [strings.LastIndexByte(s, c)]: the index of the last [c] in [s], or [-1]. *)
Fixpoint LastIndexByte (s : string) (c : ascii) : Z :=
  match s with
  | EmptyString => -1
  | String a s' =>
      let r := LastIndexByte s' c in
      if r =? -1 then (if Ascii.eqb a c then 0 else -1) else r + 1
  end.

(** [strings.SplitAfter(s, sep)] for a one-byte separator (the package calls it
    with ["/"] only): [s] is cut after each [sep]; the result is never empty. *)
Fixpoint SplitAfter (s : string) (sep : ascii) : list string :=
  match s with
  | EmptyString => [EmptyString]
  | String a s' =>
      if Ascii.eqb a sep then String a EmptyString :: SplitAfter s' sep
      else match SplitAfter s' sep with
           | p :: ps => String a p :: ps
           | [] => [String a EmptyString]
           end
  end.

(** [strings.Join(elems, sep)] *)
Fixpoint Join (elems : list string) (sep : string) : string :=
  match elems with
  | [] => EmptyString
  | [x] => x
  | x :: rest => x ++ sep ++ Join rest sep
  end.

End strings.

(** ** Values of the interface type [error]

    An interface value is [nil] or a value of one of the dynamic types that
    occur in this development: the three the standard library returns from
    [errors.New], [fmt.Errorf] (with one [%w] operand) and [errors.Join], which
    are pointers and so carry their address, and the package's own [lazyerror],
    a struct held by value, whose [==] compares the two fields. *)

Definition uintptr : Type := Z.
Definition ptr : Type := positive.

#[warning="-register-all"]
Inductive error : Type :=
| nil
| errorString (p : ptr) (s : string)
| wrapError (p : ptr) (msg : string) (err : error)
| joinError (p : ptr) (errs : list error)
| lazyerror (err : error) (pc : uintptr).

Arguments errorString p%_positive s%_string.
Arguments wrapError p%_positive msg%_string err.
Arguments joinError p%_positive errs%_list.
Arguments lazyerror err pc%_Z.

Definition is_nil (e : error) : bool :=
  match e with
  | nil => true
  | _ => false
  end.

(** Operands of the formatting functions ([any]). *)
Inductive any : Type :=
| anyString (s : string)
| anyInt (n : Z)
| anyError (e : error).

(** The allocator: the next address [new] hands out. *)
Definition heap : Type := positive.

(** ** Package [runtime] *)

Module runtime.

(** [runtime.Frame], the fields the package reads. *)
Record Frame : Type := mkFrame {
  File : string;
  Line : Z;
  Function : string
}.

(** [runtime.Callers(skip, pc)]. [stack] holds the program counters of the
    frames that are active while [Callers] runs, innermost first, its own frame
    included (so [skip = 0] names [Callers] itself and [skip = 1] its caller).
    The slice [pc] is filled from the front with what is left after [skip]
    frames; the result is its new content and the number of entries written. *)
Definition Callers (stack : list uintptr) (skip : Z) (pc : list uintptr)
  : list uintptr * Z :=
  let avail := skipn (Z.to_nat skip) stack in
  let n := Nat.min (List.length pc) (List.length avail) in
  ((firstn n avail ++ skipn n pc)%list, Z.of_nat n).

End runtime.

(** ** Package [fmt]: the part of the verb language the package relies on *)

Module fmt.

(** [%d] of an [int]. *)
Definition itoa (n : Z) : string := NilEmpty.string_of_int (Z.to_int n).

Definition is_digit (c : ascii) : bool :=
  let n := nat_of_ascii c in (48 <=? n)%nat && (n <=? 57)%nat.

Definition digit (c : ascii) : nat := (nat_of_ascii c - 48)%nat.

(** Where the scan of the format stands. *)
Inductive scan : Type :=
| Text
| Percent
| Index (n : nat) (digits : bool)
| Indexed.

(** One operand printed under one verb: [%s] and [%v] of a string, [%d] and
    [%v] of an int. *)
Definition printArg (a : option any) (verb : ascii) : option string :=
  match a with
  | Some (anyString s) =>
      if Ascii.eqb verb "s" || Ascii.eqb verb "v" then Some s else None
  | Some (anyInt n) =>
      if Ascii.eqb verb "d" || Ascii.eqb verb "v" then Some (itoa n) else None
  | _ => None
  end.

(** [doPrintf] on the fragment: literal bytes, [%%], and the verbs above, each
    optionally with an explicit one-based argument index [%[n]verb] that also
    sets where the following verbs continue. As in [fmt], operands left over
    are reported unless an index was used; that report, like flags, width,
    precision, other verbs, a bad index or a missing operand, lies outside the
    fragment, and the result there is [None]. *)
Fixpoint doPrintf (format : string) (st : scan) (a : list any)
    (argNum : nat) (reordered : bool) : option string :=
  match format with
  | EmptyString =>
      match st with
      | Text =>
          if negb reordered && (argNum <? List.length a)%nat then None
          else Some EmptyString
      | _ => None
      end
  | String c rest =>
      match st with
      | Text =>
          if Ascii.eqb c "%" then doPrintf rest Percent a argNum reordered
          else option_map (String c) (doPrintf rest Text a argNum reordered)
      | Percent =>
          if Ascii.eqb c "%"
          then option_map (String c) (doPrintf rest Text a argNum reordered)
          else if Ascii.eqb c "["
          then doPrintf rest (Index 0 false) a argNum true
          else
            match printArg (nth_error a argNum) c with
            | Some s =>
                option_map (append s)
                  (doPrintf rest Text a (S argNum) reordered)
            | None => None
            end
      | Index n digits =>
          if is_digit c
          then doPrintf rest (Index (10 * n + digit c) true) a argNum reordered
          else if Ascii.eqb c "]" && digits
                  && (1 <=? n)%nat && (n <=? List.length a)%nat
          then doPrintf rest Indexed a (n - 1) reordered
          else None
      | Indexed =>
          match printArg (nth_error a argNum) c with
          | Some s =>
              option_map (append s) (doPrintf rest Text a (S argNum) reordered)
          | None => None
          end
      end
  end.

(** [fmt.Sprintf(format, a...)] where the fragment defines it. *)
Definition Sprintf_fragment (format : string) (a : list any) : option string :=
  doPrintf format Text a 0 false.

(** A total function that is [fmt.Sprintf] on the fragment. *)
Definition Sprintf_on_fragment (format : string) (a : list any) : string :=
  match Sprintf_fragment format a with
  | Some s => s
  | None => EmptyString
  end.

End fmt.

(** ** File lazyerror.go *)

Module lazyerror.

Import builtin.

Definition slash : ascii := "/"%char.

(** [func shorten(path string, segments int) string].
    [len(p) - segments] is computed with [segments > 1] and [len(p) >= 1], and
    [i+1] with [i < len(path)]: neither can leave the range of [int]. *)
Definition shorten (path : string) (segments : Z) : result string :=
  if segments =? 0 then Ok ""
  else if segments =? 1 then
    let i := strings.LastIndexByte path slash in
    if negb (i =? -1) then slice_from path (i + 1) else Ok path
  else if segments >? 1 then
    let p := strings.SplitAfter path slash in
    let i := Z.of_nat (List.length p) - segments in
    if i >? 0 then (q <- slice_list_from p i ;; Ok (strings.Join q ""))
    else Ok path
  else Ok path.

(** [shortPath] of the earlier revision of the file has the same body. *)
Definition shortPath (path : string) (parts : Z) : result string :=
  shorten path parts.


(** The package-level variables: read at every [Error()] call, written by the
    application. *)
Record vars : Type := mkVars {
  FileSegments : Z;
  FunctionSegments : Z;
  Format : string
}.

(** Their initial values. *)
Definition init : vars :=
  {| FileSegments := 1; FunctionSegments := 1; Format := "%s:%d (%s): %s" |}.

Definition newline : string := String (ascii_of_nat 10) EmptyString.

Section Methods.

(** [fmt.Sprintf]. *)
Variable Sprintf : string -> list any -> string.

(** [runtime.CallersFrames([]uintptr{pc}).Next()]: the frame the binary's
    symbol table gives for a program counter. *)
Variable Next : uintptr -> runtime.Frame.

(** [func (le lazyerror) loc() (file string, line int, function string)] *)
Definition loc (le_err : error) (le_pc : uintptr) : string * Z * string :=
  if le_pc =? 0 then (EmptyString, 0, EmptyString)
  else
    let frame := Next le_pc in
    (runtime.File frame, runtime.Line frame, runtime.Function frame).

(** [func (le lazyerror) Error() string]; [le_err_Error] stands for the call
    [le.err.Error()], and [g] for the variables as they are during the call. *)
Definition Error (g : vars) (le_err_Error : error -> result string)
    (le_err : error) (le_pc : uintptr) : result string :=
  let '(file, line, function) := loc le_err le_pc in
  if String.eqb file "" && String.eqb function "" then le_err_Error le_err
  else
    sfile <- shorten file (FileSegments g) ;;
    sfunction <- shorten function (FunctionSegments g) ;;
    msg <- le_err_Error le_err ;;
    Ok (Sprintf (Format g)
          [anyString sfile; anyInt line; anyString sfunction; anyString msg]).

(** [func (le lazyerror) Unwrap() error] *)
Definition Unwrap (le_err : error) (le_pc : uintptr) : error := le_err.

(** [err.Error()] on an interface value: the method of its dynamic type.
    [errorString] and [wrapError] return their text, [joinError] the texts of
    its parts separated by newlines, and a nil interface has no method to
    call. *)
Fixpoint error_Error (g : vars) (err : error) : result string :=
  match err with
  | nil => Panic "invalid memory address or nil pointer dereference"
  | errorString _ s => Ok s
  | wrapError _ msg _ => Ok msg
  | joinError _ errs =>
      match errs with
      | [] => Panic "index out of range [0] with length 0"
      | e0 :: rest =>
          s0 <- error_Error g e0 ;;
          (fix loop (l : list error) (b : string) {struct l} : result string :=
             match l with
             | [] => Ok b
             | e :: l' => s <- error_Error g e ;; loop l' (b ++ newline ++ s)
             end) rest s0
      end
  | lazyerror le_err le_pc => Error g (error_Error g) le_err le_pc
  end.

(** [func (le lazyerror) GoString() string] *)
Definition GoString (g : vars) (le_err : error) (le_pc : uintptr)
  : result string :=
  s <- Error g (error_Error g) le_err le_pc ;;
  Ok (Sprintf "lazyerror{%q}" [anyString s]).


End Methods.

End lazyerror.

(** ** File lazyerror.go, the other revision

    [Error] tests the program counter itself and takes a frame that lacks the
    file or the function for no location at all; the variables, [Unwrap] and
    the shortening are as above. *)

Module lazyerror0.

Import lazyerror.

Section Methods.

Variable Sprintf : string -> list any -> string.
Variable Next : uintptr -> runtime.Frame.

(** [func (le lazyerror) Error() string] *)
Definition Error (g : vars) (le_err_Error : error -> result string)
    (le_err : error) (le_pc : uintptr) : result string :=
  if le_pc =? 0 then le_err_Error le_err
  else
    let frame := Next le_pc in
    if String.eqb (runtime.File frame) ""
       || String.eqb (runtime.Function frame) ""
    then le_err_Error le_err
    else
      sfile <- shortPath (runtime.File frame) (FileSegments g) ;;
      sfunction <- shortPath (runtime.Function frame) (FunctionSegments g) ;;
      msg <- le_err_Error le_err ;;
      Ok (Sprintf (Format g)
            [anyString sfile; anyInt (runtime.Line frame);
             anyString sfunction; anyString msg]).

(** [err.Error()] in a program built from this revision. *)
Fixpoint error_Error (g : vars) (err : error) : result string :=
  match err with
  | nil => Panic "invalid memory address or nil pointer dereference"
  | errorString _ s => Ok s
  | wrapError _ msg _ => Ok msg
  | joinError _ errs =>
      match errs with
      | [] => Panic "index out of range [0] with length 0"
      | e0 :: rest =>
          s0 <- error_Error g e0 ;;
          (fix loop (l : list error) (b : string) {struct l} : result string :=
             match l with
             | [] => Ok b
             | e :: l' => s <- error_Error g e ;; loop l' (b ++ newline ++ s)
             end) rest s0
      end
  | lazyerror le_err le_pc => Error g (error_Error g) le_err le_pc
  end.

End Methods.

End lazyerror0.

(** ** Package [errors] *)

Module errors.

(** [errors.New(text)]: a fresh [*errorString]. *)
Definition New (h : heap) (text : string) : error * heap :=
  (errorString h text, Pos.succ h).

(** [errors.Join(errs...)]: nil when every operand is nil, otherwise a fresh
    [*joinError] holding the non-nil operands in order. *)
Definition Join (h : heap) (errs : list error) : error * heap :=
  let n := List.length (filter (fun e => negb (is_nil e)) errs) in
  if (n =? 0)%nat then (nil, h)
  else (joinError h (filter (fun e => negb (is_nil e)) errs), Pos.succ h).

(** [errors.Unwrap(err)]: the result of the [Unwrap() error] method when the
    dynamic type of [err] has one ([lazyerror] and [*wrapError] do;
    [*joinError] has [Unwrap() []error] instead), otherwise nil. *)
Definition Unwrap (err : error) : error :=
  match err with
  | lazyerror le_err le_pc => lazyerror.Unwrap le_err le_pc
  | wrapError _ _ e => e
  | _ => nil
  end.

(** [==] on two interface values: the same dynamic type and equal values.
    Pointers are equal when they are the same address, [lazyerror] structs
    when their fields are. *)
Fixpoint equal (a b : error) : bool :=
  match a, b with
  | nil, nil => true
  | errorString p _, errorString q _ => Pos.eqb p q
  | wrapError p _ _, wrapError q _ _ => Pos.eqb p q
  | joinError p _, joinError q _ => Pos.eqb p q
  | lazyerror e pc, lazyerror e' pc' => equal e e' && (pc =? pc')
  | _, _ => false
  end.

(** [errors.is(err, target, targetComparable)]: the walk over the tree of
    [err]. None of the dynamic types has an [Is] method. *)
Fixpoint is_ (err target : error) (targetComparable : bool) : bool :=
  if targetComparable && equal err target then true
  else
    match err with
    | lazyerror le_err le_pc =>
        let err := lazyerror.Unwrap le_err le_pc in
        if is_nil err then false else is_ err target targetComparable
    | wrapError _ _ e =>
        if is_nil e then false else is_ e target targetComparable
    | joinError _ errs => existsb (fun e => is_ e target targetComparable) errs
    | _ => false
    end.

(** [errors.Is(err, target)]; every dynamic type here is comparable. *)
Definition Is (err target : error) : bool :=
  if is_nil err || is_nil target then equal err target
  else is_ err target true.

End errors.

(** ** Files lazyerrors.go and errors.go *)

Module lazyerrors.

(** The functions whose frames are on the stack while a location is taken. *)
Inductive func : Type :=
| func_Callers
| func_pc
| func_New
| func_Error
| func_Errorf
| func_Join.

Section Constructors.

(** The program counter recorded for the frame of each of these functions
    while the call below it runs. *)
Variable at_ : func -> uintptr.

(** [fmt.Errorf]. *)
Variable fmt_Errorf : heap -> string -> list any -> error * heap.

(** [func pc() uintptr]. [stack] is the stack of the callers of [pc],
    innermost first; [pc] adds its own frame and [runtime.Callers] the frame
    of [Callers]. *)
Definition pc (stack : list uintptr) : uintptr :=
  let pc := repeat 0 1 in
  let '(pc, _) := runtime.Callers (at_ func_Callers :: at_ func_pc :: stack) 3 pc in
  nth 0 pc 0.

(** [func New(s string) error] *)
Definition New (h : heap) (stack : list uintptr) (s : string) : error * heap :=
  let '(err, h) := errors.New h s in
  (lazyerror err (pc (at_ func_New :: stack)), h).

(** [func Error(err error) error] *)
Definition Error (stack : list uintptr) (err : error) : result error :=
  if is_nil err then Panic "err is nil"
  else Ok (lazyerror err (pc (at_ func_Error :: stack))).

(** [func Errorf(format string, a ...any) error] *)
Definition Errorf (h : heap) (stack : list uintptr) (format : string)
    (a : list any) : error * heap :=
  let '(err, h) := fmt_Errorf h format a in
  (lazyerror err (pc (at_ func_Errorf :: stack)), h).

(** [func Join(errs ...error) error] *)
Definition Join (h : heap) (stack : list uintptr) (errs : list error)
  : error * heap :=
  let '(err, h) := errors.Join h errs in
  if is_nil err then (nil, h)
  else (lazyerror err (pc (at_ func_Join :: stack)), h).

(** [func Unwrap(err error) error] (errors.go) *)
Definition Unwrap (err : error) : error := errors.Unwrap err.

(** [func Is(err, target error) bool] (errors.go) *)
Definition Is (err target : error) : bool := errors.Is err target.

(** [n] applications of [Unwrap] (the helper [unwrap] of the tests). *)
Fixpoint unwrap (err : error) (n : nat) : error :=
  match n with
  | O => err
  | S n' => unwrap (Unwrap err) n'
  end.

(** A chain of wraps: [Error] applied once per call stack of [stacks], the
    last stack first, so that the head of [stacks] is the outermost wrap. *)
Fixpoint wraps (stacks : list (list uintptr)) (base : error) : result error :=
  match stacks with
  | [] => Ok base
  | stack :: inner => err <- wraps inner base ;; Error stack err
  end.

End Constructors.

End lazyerrors.

(** ** An application: writes to the variables and calls to [Error()] *)

Module app.

Inductive action : Type :=
| SetFileSegments (n : Z)
| SetFunctionSegments (n : Z)
| SetFormat (f : string)
| CallError (err : error).

Section Run.

Variable Sprintf : string -> list any -> string.
Variable Next : uintptr -> runtime.Frame.

(** One action: the variables after it and what it returned, if anything. *)
Definition step (g : lazyerror.vars) (a : action)
  : lazyerror.vars * option (result string) :=
  match a with
  | SetFileSegments n =>
      (lazyerror.mkVars n (lazyerror.FunctionSegments g) (lazyerror.Format g),
       None)
  | SetFunctionSegments n =>
      (lazyerror.mkVars (lazyerror.FileSegments g) n (lazyerror.Format g), None)
  | SetFormat f =>
      (lazyerror.mkVars (lazyerror.FileSegments g)
         (lazyerror.FunctionSegments g) f, None)
  | CallError err => (g, Some (lazyerror.error_Error Sprintf Next g err))
  end.

(** A sequence of actions: the variables at the end and the strings returned
    by the calls, in order. *)
Fixpoint run (g : lazyerror.vars) (l : list action)
  : lazyerror.vars * list (result string) :=
  match l with
  | [] => (g, [])
  | a :: l' =>
      let '(g1, out) := step g a in
      let '(g2, outs) := run g1 l' in
      (g2, match out with
           | Some s => s :: outs
           | None => outs
           end)
  end.

End Run.

End app.

(** ** The vocabulary of the specification *)

Module spec.

(** The byte [c] occurs in [s]. *)
Fixpoint has_byte (c : ascii) (s : string) : bool :=
  match s with
  | EmptyString => false
  | String a s' => Ascii.eqb a c || has_byte c s'
  end.

(** The last byte of [s] is [c]. *)
Fixpoint ends_with (c : ascii) (s : string) : bool :=
  match s with
  | EmptyString => false
  | String a EmptyString => Ascii.eqb a c
  | String _ s' => ends_with c s'
  end.

(** [r] is a suffix of [s]. *)
Definition suffix (r s : string) : Prop := exists pre, s = pre ++ r.

(** The pieces put back together, nothing in between. *)
Definition joined (ps : list string) : string := fold_right append EmptyString ps.

(** [ps] cuts [s] into [/]-delimited pieces, each separator kept at the end of
    the piece it closes: the pieces put together are [s], every piece but the
    last is a run of bytes other than [/] followed by one [/], and the last
    piece has no [/]. *)
Definition pieces (ps : list string) (s : string) : Prop :=
  joined ps = s /\
  exists leading final,
    ps = (leading ++ [final])%list /\
    Forall (fun p => exists b, p = b ++ String lazyerror.slash EmptyString
                               /\ has_byte lazyerror.slash b = false) leading /\
    has_byte lazyerror.slash final = false.

(** The last [n] elements of [l], all of [l] when it has no more than [n]. *)
Definition last_n {A : Type} (n : nat) (l : list A) : list A :=
  skipn (List.length l - n) l.

(** The shortened form as a string ([shorten] never panics, see
    [shorten_total]). *)
Definition shortened (path : string) (segments : Z) : string :=
  match lazyerror.shorten path segments with
  | Ok r => r
  | Panic _ => EmptyString
  end.

(** The location of [pc] under the default format, as it precedes the message
    of the cause: [<shortened-file>:<line> (<shortened-function>): ]. *)
Definition location (Next : uintptr -> runtime.Frame) (g : lazyerror.vars)
    (pc : uintptr) : string :=
  shortened (runtime.File (Next pc)) (lazyerror.FileSegments g)
  ++ ":" ++ fmt.itoa (runtime.Line (Next pc))
  ++ " (" ++ shortened (runtime.Function (Next pc)) (lazyerror.FunctionSegments g)
  ++ "): ".

(** The program counter resolves to a file or to a function. *)
Definition located (Next : uintptr -> runtime.Frame) (pc : uintptr) : Prop :=
  pc <> 0 /\
  (runtime.File (Next pc) <> EmptyString
   \/ runtime.Function (Next pc) <> EmptyString).

(** [fmt.Sprintf] is a function that agrees with the fragment of [fmt]. *)
Definition is_Sprintf (Sprintf : string -> list any -> string) : Prop :=
  forall format a s, fmt.Sprintf_fragment format a = Some s -> Sprintf format a = s.

(** The values [FileSegments], [FunctionSegments] and [Format] hold after the
    writes among [l], whatever calls stand between them. *)
Fixpoint settings (g : lazyerror.vars) (l : list app.action) : lazyerror.vars :=
  match l with
  | [] => g
  | app.SetFileSegments n :: l' =>
      settings (lazyerror.mkVars n (lazyerror.FunctionSegments g)
                  (lazyerror.Format g)) l'
  | app.SetFunctionSegments n :: l' =>
      settings (lazyerror.mkVars (lazyerror.FileSegments g) n
                  (lazyerror.Format g)) l'
  | app.SetFormat f :: l' =>
      settings (lazyerror.mkVars (lazyerror.FileSegments g)
                  (lazyerror.FunctionSegments g) f) l'
  | app.CallError _ :: l' => settings g l'
  end.

(** How many times the byte [c] occurs in [s]. *)
Fixpoint count_byte (c : ascii) (s : string) : nat :=
  match s with
  | EmptyString => O
  | String a s' => ((if Ascii.eqb a c then 1 else 0) + count_byte c s')%nat
  end.

(** [located], decided. *)
Definition resolved (Next : uintptr -> runtime.Frame) (pc : uintptr) : bool :=
  negb (pc =? 0)
  && negb (String.eqb (runtime.File (Next pc)) EmptyString
           && String.eqb (runtime.Function (Next pc)) EmptyString).

(** The frame of [pc] has both a file and a function, or neither. *)
Definition whole (Next : uintptr -> runtime.Frame) (pc : uintptr) : Prop :=
  runtime.File (Next pc) = EmptyString
  <-> runtime.Function (Next pc) = EmptyString.

(** An error whose [Error()] has everything it needs: it is not nil, a wrap
    holds such an error, and an aggregate holds at least one and only such
    errors. *)
Fixpoint wf (err : error) : bool :=
  match err with
  | nil => false
  | errorString _ _ => true
  | wrapError _ _ _ => true
  | joinError _ errs =>
      match errs with
      | [] => false
      | _ => forallb wf errs
      end
  | lazyerror le_err _ => wf le_err
  end.

(** The caller of a constructor: the innermost frame of its stack. *)
Definition caller (stack : list uintptr) : uintptr := nth 0 stack 0.

(** [lazyerror] values nested around [base], one per program counter, the
    first outermost. *)
Fixpoint chain (pcs : list uintptr) (base : error) : error :=
  match pcs with
  | [] => base
  | pc :: inner => lazyerror (chain inner base) pc
  end.

End spec.

(** ** The test binary: a symbol table and code addresses for the examples *)

Module test.

Definition test_go : string :=
  "/home/user/go/src/github.com/AlekSi/lazyerrors/lazyerrors_test.go".

(** Program counters [1 .. 999] stand for the lines of [lazyerrors_test.go]:
    line 175 is the package initialiser, line 166 the goroutine of [TestPC],
    the rest is put in [TestErrors]. Anything else resolves to nothing. *)
Definition Next (pc : uintptr) : runtime.Frame :=
  if (1 <=? pc) && (pc <=? 999) then
    runtime.mkFrame test_go pc
      (if pc =? 175 then "github.com/AlekSi/lazyerrors.init"
       else if pc =? 166 then "github.com/AlekSi/lazyerrors.TestPC.func1"
       else "github.com/AlekSi/lazyerrors.TestErrors")
  else runtime.mkFrame EmptyString 0 EmptyString.

(** Addresses inside the package and the runtime. *)
Definition at_ (f : lazyerrors.func) : uintptr :=
  match f with
  | lazyerrors.func_Callers => 4096
  | lazyerrors.func_pc => 4352
  | lazyerrors.func_New => 4608
  | lazyerrors.func_Error => 4864
  | lazyerrors.func_Errorf => 5120
  | lazyerrors.func_Join => 5376
  end.

(** [fmt.Errorf] for a format without verbs: a fresh error with that text. *)
Definition fmt_Errorf (h : heap) (format : string) (a : list any)
  : error * heap :=
  (errorString h (fmt.Sprintf_on_fragment format a), Pos.succ h).



(** A symbol table without file names: every program counter resolves to a
    function alone. *)
Definition Next_without_files (pc : uintptr) : runtime.Frame :=
  runtime.mkFrame EmptyString 0 "github.com/AlekSi/lazyerrors.TestErrors".

(** The stack of a call made at line [line] of a test run by the testing
    package. *)
Definition at_line (line : Z) : list uintptr := [line; 60001; 60002].

End test.

(** * Properties *)

Import lazyerror.

(** ** Strings *)

Lemma append_empty_r (s : string) : s ++ "" = s.
Proof. induction s as [|a s IH]; simpl; [reflexivity | now rewrite IH]. Qed.

Lemma append_assoc' (a b c : string) : (a ++ b) ++ c = a ++ (b ++ c).
Proof. induction a as [|x a IH]; simpl; [reflexivity | now rewrite IH]. Qed.

Lemma append_length (a b : string) :
  String.length (a ++ b) = (String.length a + String.length b)%nat.
Proof. induction a as [|x a IH]; simpl; [reflexivity | now rewrite IH]. Qed.

Lemma has_byte_append (c : ascii) (a b : string) :
  spec.has_byte c (a ++ b) = spec.has_byte c a || spec.has_byte c b.
Proof.
  induction a as [|x a IH]; simpl; [reflexivity | now rewrite IH, orb_assoc].
Qed.

Lemma drop_append (pre r : string) :
  builtin.drop (String.length pre) (pre ++ r) = r.
Proof. induction pre as [|x pre IH]; simpl; [now destruct r | exact IH]. Qed.

Lemma suffix_refl (s : string) : spec.suffix s s.
Proof. now exists "". Qed.

Lemma suffix_empty (s : string) : spec.suffix "" s.
Proof. exists s. now rewrite append_empty_r. Qed.

Lemma suffix_has_byte (c : ascii) (r s : string) :
  spec.suffix r s -> spec.has_byte c r = true -> spec.has_byte c s = true.
Proof.
  intros [pre ->] H. rewrite has_byte_append, H. apply orb_true_r.
Qed.

(** [LastIndexByte] is [-1] exactly on the strings without the byte. *)
Lemma LastIndexByte_absent (s : string) (c : ascii) :
  strings.LastIndexByte s c = -1 <-> spec.has_byte c s = false.
Proof.
  induction s as [|a s IH]; simpl; [tauto|].
  destruct (Z.eqb_spec (strings.LastIndexByte s c) (-1)) as [E|E].
  - destruct (Ascii.eqb a c); simpl; [split; [lia | discriminate]|].
    split; intros _; [now apply IH | reflexivity].
  - assert (Hs : spec.has_byte c s <> false) by (intros H; now apply IH in H).
    destruct (spec.has_byte c s); [|congruence].
    rewrite orb_true_r. split; [|discriminate].
    intros H. exfalso.
    assert (-1 <= strings.LastIndexByte s c).
    { clear. induction s as [|b s IH]; simpl; [lia|].
      destruct (strings.LastIndexByte s c =? -1); [destruct (Ascii.eqb b c)|]; lia. }
    lia.
Qed.

(** Otherwise it is the length of what stands before the last occurrence. *)
Lemma LastIndexByte_split (s : string) (c : ascii) :
  strings.LastIndexByte s c <> -1 ->
  exists pre r,
    s = pre ++ String c r /\
    strings.LastIndexByte s c = Z.of_nat (String.length pre) /\
    spec.has_byte c r = false.
Proof.
  induction s as [|a s IH]; simpl; [congruence|].
  destruct (Z.eqb_spec (strings.LastIndexByte s c) (-1)) as [E|E].
  - destruct (Ascii.eqb_spec a c) as [->|]; [|congruence].
    intros _. exists "", s. repeat split. now apply LastIndexByte_absent.
  - intros _. destruct (IH E) as (pre & r & -> & Hi & Hr).
    exists (String a pre), r. repeat split; [|exact Hr].
    rewrite Hi. simpl String.length. lia.
Qed.

Lemma Join_joined (ps : list string) : strings.Join ps "" = spec.joined ps.
Proof.
  induction ps as [|p ps IH]; [reflexivity|].
  cbn [strings.Join spec.joined fold_right]. fold (spec.joined ps).
  destruct ps as [|q ps]; [now rewrite append_empty_r|].
  now rewrite <- IH.
Qed.

Lemma joined_app (l1 l2 : list string) :
  spec.joined (l1 ++ l2)%list = spec.joined l1 ++ spec.joined l2.
Proof.
  induction l1 as [|p l1 IH]; [reflexivity|].
  cbn [app spec.joined fold_right]. fold (spec.joined (l1 ++ l2)%list).
  fold (spec.joined l1). now rewrite IH, append_assoc'.
Qed.

Lemma joined_skipn_suffix (k : nat) (ps : list string) :
  spec.suffix (spec.joined (skipn k ps)) (spec.joined ps).
Proof.
  exists (spec.joined (firstn k ps)).
  now rewrite <- joined_app, firstn_skipn.
Qed.

(** [SplitAfter] yields the pieces the specification describes. *)
Lemma SplitAfter_pieces (s : string) :
  spec.pieces (strings.SplitAfter s slash) s.
Proof.
  induction s as [|a s (Hj & leading & final & Hps & Hlead & Hfin)].
  - split; [reflexivity|]. exists [], "". repeat split. constructor.
  - cbn [strings.SplitAfter]. destruct (Ascii.eqb_spec a slash) as [->|Hne].
    + split; [cbn; fold (spec.joined (strings.SplitAfter s slash)); now rewrite Hj|].
      exists (String slash "" :: leading), final. rewrite Hps. repeat split; [|exact Hfin].
      constructor; [|exact Hlead]. now exists "".
    + rewrite Hps in *. destruct leading as [|p leading]; cbn [app].
      * split; [cbn in *; now rewrite Hj|].
        exists [], (String a final). repeat split; [constructor|].
        cbn. rewrite Hfin. destruct (Ascii.eqb_spec a slash); [contradiction | reflexivity].
      * split; [cbn in *; now rewrite Hj|].
        exists (String a p :: leading), final. repeat split; [|exact Hfin].
        inversion Hlead as [|? ? (b & -> & Hb) Hrest]; subst.
        constructor; [|exact Hrest]. exists (String a b). split; [reflexivity|].
        cbn. rewrite Hb. destruct (Ascii.eqb_spec a slash); [contradiction | reflexivity].
Qed.

Lemma SplitAfter_no_slash (s : string) :
  spec.has_byte slash s = false -> strings.SplitAfter s slash = [s].
Proof.
  induction s as [|a s IH]; [reflexivity|].
  cbn [spec.has_byte strings.SplitAfter]. intros H.
  apply orb_false_iff in H as [Ha Hs]. now rewrite Ha, (IH Hs).
Qed.

Lemma SplitAfter_piece (b rest : string) :
  spec.has_byte slash b = false ->
  strings.SplitAfter ((b ++ String slash "") ++ rest) slash
  = (b ++ String slash "") :: strings.SplitAfter rest slash.
Proof.
  induction b as [|a b IH]; [reflexivity|].
  cbn [spec.has_byte append strings.SplitAfter]. intros H.
  apply orb_false_iff in H as [Ha Hb]. now rewrite Ha, (IH Hb).
Qed.

(** The pieces of a string are the ones [SplitAfter] computes. *)
Lemma pieces_unique (ps : list string) (s : string) :
  spec.pieces ps s -> ps = strings.SplitAfter s slash.
Proof.
  intros (Hj & leading & final & -> & Hlead & Hfin). subst s.
  induction Hlead as [|p leading (b & -> & Hb) _ IH].
  - cbn. rewrite append_empty_r. symmetry. now apply SplitAfter_no_slash.
  - cbn [app spec.joined fold_right].
    fold (spec.joined (leading ++ [final])%list).
    rewrite (SplitAfter_piece _ _ Hb). now f_equal.
Qed.

Lemma SplitAfter_length (s : string) :
  (1 <= List.length (strings.SplitAfter s slash))%nat.
Proof.
  destruct (SplitAfter_pieces s) as (_ & leading & final & -> & _).
  rewrite length_app. simpl. lia.
Qed.

Lemma ends_with_absent (c : ascii) (s : string) :
  spec.has_byte c s = false -> spec.ends_with c s = false.
Proof.
  induction s as [|a s IH]; [reflexivity|].
  cbn [spec.has_byte spec.ends_with]. intros H.
  apply orb_false_iff in H as [Ha Hs]. destruct s; [exact Ha | now apply IH].
Qed.

Lemma ends_with_split (c : ascii) (pre r : string) :
  spec.has_byte c r = false ->
  (spec.ends_with c (pre ++ String c r) = true <-> r = "").
Proof.
  intros Hr. induction pre as [|a pre IH].
  - cbn [append spec.ends_with]. destruct r as [|x r].
    + rewrite Ascii.eqb_refl. tauto.
    + change (spec.ends_with c (String x r) = true <-> String x r = "").
      rewrite (ends_with_absent _ _ Hr). split; discriminate.
  - cbn [append spec.ends_with].
    destruct (pre ++ String c r) eqn:E; [|exact IH].
    destruct pre; discriminate.
Qed.

Lemma last_split_unique (c : ascii) (pre pre' r r' : string) :
  pre ++ String c r = pre' ++ String c r' ->
  spec.has_byte c r = false -> spec.has_byte c r' = false -> r = r'.
Proof.
  revert pre'. induction pre as [|a pre IH]; intros [|a' pre'] Hp Hr Hr'; cbn in Hp.
  - now injection Hp.
  - injection Hp as <- Hp. rewrite Hp, has_byte_append in Hr. cbn in Hr.
    rewrite Ascii.eqb_refl, orb_true_r in Hr. discriminate.
  - injection Hp as -> Hp. rewrite <- Hp, has_byte_append in Hr'. cbn in Hr'.
    rewrite Ascii.eqb_refl, orb_true_r in Hr'. discriminate.
  - injection Hp as _ Hp. now apply (IH pre').
Qed.

(** ** [shorten], case by case *)

Lemma shorten_zero (path : string) : shorten path 0 = Ok "".
Proof. reflexivity. Qed.

Lemma shorten_negative (path : string) (segments : Z) :
  segments < 0 -> shorten path segments = Ok path.
Proof.
  intros H. unfold shorten.
  destruct (Z.eqb_spec segments 0); [lia|].
  destruct (Z.eqb_spec segments 1); [lia|].
  destruct (Z.gtb_spec segments 1); [lia | reflexivity].
Qed.

Lemma shorten_one_absent (path : string) :
  spec.has_byte slash path = false -> shorten path 1 = Ok path.
Proof.
  intros H. unfold shorten. cbn [Z.eqb Pos.eqb].
  apply LastIndexByte_absent in H. now rewrite H.
Qed.

Lemma shorten_one_split (pre r : string) :
  spec.has_byte slash r = false ->
  shorten (pre ++ String slash r) 1 = Ok r.
Proof.
  intros Hr. unfold shorten. cbn [Z.eqb Pos.eqb].
  set (path := pre ++ String slash r).
  assert (Hne : strings.LastIndexByte path slash <> -1).
  { intros H. apply LastIndexByte_absent in H. unfold path in H.
    rewrite has_byte_append in H. cbn in H. now rewrite orb_true_r in H. }
  destruct (LastIndexByte_split _ _ Hne) as (pre' & r' & Hp & Hi & Hr').
  destruct (Z.eqb_spec (strings.LastIndexByte path slash) (-1)); [contradiction|].
  cbn [negb]. unfold builtin.slice_from, builtin.len. rewrite Hi.
  assert (Hlen : String.length path = (String.length pre' + S (String.length r'))%nat)
    by (rewrite Hp, append_length; reflexivity).
  destruct (Z.ltb_spec (Z.of_nat (String.length pre') + 1) 0); [lia|].
  destruct (Z.ltb_spec (Z.of_nat (String.length path))
              (Z.of_nat (String.length pre') + 1)); [lia|].
  cbn [orb]. f_equal.
  replace (Z.to_nat (Z.of_nat (String.length pre') + 1))
    with (String.length (pre' ++ String slash "")) by (rewrite append_length; simpl; lia).
  rewrite Hp.
  replace (pre' ++ String slash r') with ((pre' ++ String slash "") ++ r')
    by (now rewrite append_assoc').
  rewrite drop_append.
  symmetry. now apply (last_split_unique slash pre pre').
Qed.

Lemma shorten_many (path : string) (segments : Z) :
  1 < segments ->
  shorten path segments
  = Ok (spec.joined (spec.last_n (Z.to_nat segments) (strings.SplitAfter path slash))).
Proof.
  intros H. unfold shorten, spec.last_n.
  destruct (Z.eqb_spec segments 0); [lia|].
  destruct (Z.eqb_spec segments 1); [lia|].
  destruct (Z.gtb_spec segments 1); [|lia].
  pose proof (SplitAfter_length path) as Hlen.
  set (p := strings.SplitAfter path slash) in *.
  destruct (Z.gtb_spec (Z.of_nat (List.length p) - segments) 0) as [Hi|Hi].
  - unfold builtin.slice_list_from.
    destruct (Z.ltb_spec (Z.of_nat (List.length p) - segments) 0); [lia|].
    destruct (Z.ltb_spec (Z.of_nat (List.length p))
                (Z.of_nat (List.length p) - segments)); [lia|].
    cbn [orb bind]. rewrite Join_joined. do 3 f_equal. lia.
  - replace (List.length p - Z.to_nat segments)%nat with O by lia.
    cbn [skipn]. f_equal. symmetry. apply (SplitAfter_pieces path).
Qed.

Lemma append_empty_inv (a b : string) : a ++ b = "" -> a = "" /\ b = "".
Proof. destruct a; [intros H; now split | discriminate]. Qed.

Lemma joined_last_n_empty (n : nat) (ps : list string) (path : string) :
  spec.pieces ps path -> (2 <= n)%nat ->
  (spec.joined (spec.last_n n ps) = "" <-> path = "").
Proof.
  intros (Hj & leading & final & -> & Hlead & _) Hn. unfold spec.last_n.
  destruct leading as [|p leading].
  - cbn [app List.length] in *. replace (1 - n)%nat with O by lia.
    cbn [skipn]. now rewrite Hj.
  - split.
    + intros H. exfalso.
      remember (p :: leading) as l eqn:El.
      remember (List.length (l ++ [final])%list - n)%nat as k eqn:Ek.
      assert (Hk : (k < List.length l)%nat).
      { rewrite Ek, length_app, El. cbn [List.length]. lia. }
      rewrite skipn_app in H.
      replace (k - List.length l)%nat with O in H by lia. cbn [skipn] in H.
      destruct (skipn k l) as [|q rest] eqn:E.
      * apply (f_equal (@List.length string)) in E. rewrite length_skipn in E.
        cbn [List.length] in E. lia.
      * assert (Hq : In q l).
        { rewrite <- (firstn_skipn k l), E. apply in_or_app. right. now left. }
        rewrite Forall_forall in Hlead. destruct (Hlead q Hq) as (b & -> & _).
        cbn [app spec.joined fold_right] in H.
        apply append_empty_inv in H as [H _].
        apply append_empty_inv in H as [_ H]. discriminate.
    + intros ->. exfalso. inversion Hlead as [|? ? (b & -> & _) _]; subst.
      cbn [app spec.joined fold_right] in Hj.
      apply append_empty_inv in Hj as [H _].
      apply append_empty_inv in H as [_ H]. discriminate.
Qed.

(** [shorten] returns, whatever the arguments. *)
Lemma shorten_total (path : string) (segments : Z) :
  exists r, shorten path segments = Ok r.
Proof.
  destruct (Z.lt_trichotomy segments 0) as [H|[->|H]].
  - eexists. now apply shorten_negative.
  - eexists. apply shorten_zero.
  - destruct (Z.eq_dec segments 1) as [->|H1].
    + destruct (spec.has_byte slash path) eqn:E.
      * assert (Hne : strings.LastIndexByte path slash <> -1).
        { intros HH. apply LastIndexByte_absent in HH. congruence. }
        destruct (LastIndexByte_split _ _ Hne) as (pre & r & -> & _ & Hr).
        eexists. now apply shorten_one_split.
      * eexists. now apply shorten_one_absent.
    + eexists. apply shorten_many. lia.
Qed.

Lemma shortened_Ok (path : string) (segments : Z) :
  shorten path segments = Ok (spec.shortened path segments).
Proof.
  unfold spec.shortened. destruct (shorten_total path segments) as [r ->].
  reflexivity.
Qed.

(** C3. [shorten] follows the case analysis of the specification: a negative
    count leaves the string unchanged; count 0 gives the empty string; count 1
    gives what stands after the last [/], or the whole string when it has no
    [/]; a count above 1 cuts the string into its [/]-terminated pieces and
    gives the last [segments] of them, which is the whole string when there are
    no more pieces than that; and a string without [/] is returned unchanged
    for every count from 1 on. *)
Theorem shorten_case_analysis (path : string) (segments : Z) :
  (segments < 0 -> shorten path segments = Ok path) /\
  (segments = 0 -> shorten path segments = Ok "") /\
  (segments = 1 ->
     (spec.has_byte slash path = false /\ shorten path segments = Ok path) \/
     (exists pre r,
        path = pre ++ String slash r /\ spec.has_byte slash r = false /\
        shorten path segments = Ok r)) /\
  (segments > 1 ->
     exists ps,
       spec.pieces ps path /\
       (forall ps', spec.pieces ps' path -> ps' = ps) /\
       shorten path segments
       = Ok (spec.joined (spec.last_n (Z.to_nat segments) ps)) /\
       (Z.of_nat (List.length ps) <= segments ->
        shorten path segments = Ok path)) /\
  (segments >= 1 -> spec.has_byte slash path = false ->
   shorten path segments = Ok path).
Proof.
  repeat split.
  - apply shorten_negative.
  - intros ->. apply shorten_zero.
  - intros ->. destruct (spec.has_byte slash path) eqn:E.
    + right.
      assert (Hne : strings.LastIndexByte path slash <> -1).
      { intros HH. apply LastIndexByte_absent in HH. congruence. }
      destruct (LastIndexByte_split _ _ Hne) as (pre & r & -> & _ & Hr).
      exists pre, r. repeat split; [exact Hr | now apply shorten_one_split].
    + left. split; [reflexivity | now apply shorten_one_absent].
  - intros H. exists (strings.SplitAfter path slash).
    pose proof (SplitAfter_pieces path) as Hp.
    repeat split; try apply Hp.
    + intros ps' Hps'. now apply pieces_unique.
    + apply shorten_many. lia.
    + intros Hlen. rewrite shorten_many by lia. unfold spec.last_n.
      replace (List.length (strings.SplitAfter path slash) - Z.to_nat segments)%nat
        with O by lia.
      cbn [skipn]. f_equal. apply Hp.
  - intros H Hno. destruct (Z.eq_dec segments 1) as [->|H1].
    + now apply shorten_one_absent.
    + rewrite shorten_many by lia. rewrite (SplitAfter_no_slash _ Hno).
      unfold spec.last_n. cbn [List.length].
      replace (1 - Z.to_nat segments)%nat with O by lia.
      cbn. now rewrite append_empty_r.
Qed.

(** C10, the claim as stated fails: with one segment asked for, a path that
    ends in [/] is shortened to the empty string although [segments] is not 0. *)
Lemma shorten_empty_with_one_segment :
  shorten "pkg/" 1 = Ok "" /\
  ~ (forall r, shorten "pkg/" 1 = Ok r -> (r = "" <-> 1 = 0)).
Proof.
  split; [reflexivity|].
  intros H. destruct (H "" eq_refl) as [H1 _]. specialize (H1 eq_refl). lia.
Qed.

(** C10, amended. [shorten] is total and its result is a suffix of [path]; it
    is the empty string when [segments] is 0, and besides only when the suffix
    selected is empty: [path] is empty, or [segments] is 1 and [path] ends in
    [/]. So every byte of the result occurs in [path], and the result is [path]
    when [segments] is negative. *)
Theorem shorten_suffix (path : string) (segments : Z) :
  exists r,
    shorten path segments = Ok r /\
    spec.suffix r path /\
    (segments = 0 -> r = "") /\
    (r = "" <->
     segments = 0 \/ path = "" \/
     (segments = 1 /\ spec.ends_with slash path = true)) /\
    (forall c, spec.has_byte c r = true -> spec.has_byte c path = true) /\
    (segments < 0 -> r = path).
Proof.
  assert (Hgen : forall r,
    shorten path segments = Ok r -> spec.suffix r path ->
    (r = "" <-> segments = 0 \/ path = "" \/
                (segments = 1 /\ spec.ends_with slash path = true)) ->
    (segments < 0 -> r = path) ->
    exists r, shorten path segments = Ok r /\ spec.suffix r path /\
      (segments = 0 -> r = "") /\
      (r = "" <-> segments = 0 \/ path = "" \/
                  (segments = 1 /\ spec.ends_with slash path = true)) /\
      (forall c, spec.has_byte c r = true -> spec.has_byte c path = true) /\
      (segments < 0 -> r = path)).
  { intros r Hr Hs Hiff Hneg. exists r. repeat split; try tauto.
    - intros c. now apply suffix_has_byte. }
  destruct (Z.lt_trichotomy segments 0) as [H|[->|H]].
  - apply (Hgen path); [now apply shorten_negative | apply suffix_refl | | reflexivity].
    split; [tauto|]. intros [?|[?|[? _]]]; [lia | assumption | lia].
  - apply (Hgen ""); [apply shorten_zero | apply suffix_empty | tauto | lia].
  - destruct (Z.eq_dec segments 1) as [->|H1].
    + destruct (spec.has_byte slash path) eqn:E.
      * assert (Hne : strings.LastIndexByte path slash <> -1).
        { intros HH. apply LastIndexByte_absent in HH. congruence. }
        destruct (LastIndexByte_split _ _ Hne) as (pre & r & -> & _ & Hr).
        apply (Hgen r); [now apply shorten_one_split | | | lia].
        -- exists (pre ++ String slash ""). now rewrite append_assoc'.
        -- rewrite (ends_with_split slash pre r Hr). split; [tauto|].
           intros [?|[HH|[_ ?]]]; [lia | | assumption].
           destruct pre; discriminate.
      * apply (Hgen path); [now apply shorten_one_absent | apply suffix_refl | | lia].
        rewrite (ends_with_absent _ _ E). split; [tauto|].
        intros [?|[?|[_ ?]]]; [lia | assumption | discriminate].
    + pose proof (SplitAfter_pieces path) as Hp.
      apply (Hgen (spec.joined (spec.last_n (Z.to_nat segments)
                                  (strings.SplitAfter path slash))));
        [apply shorten_many; lia | | | lia].
      * destruct Hp as [Hj _]. rewrite <- Hj at 2. apply joined_skipn_suffix.
      * rewrite (joined_last_n_empty _ _ _ Hp) by lia. split; [tauto|].
        intros [?|[?|[? _]]]; [lia | assumption | lia].
Qed.

(** ** Capturing the location *)

Section Capture.

Variable at_ : lazyerrors.func -> uintptr.
Variable fmt_Errorf : heap -> string -> list any -> error * heap.

(** [pc] returns the second entry of the stack of its callers: the caller of
    its caller. *)
Lemma pc_caller_of_caller (stack : list uintptr) :
  lazyerrors.pc at_ stack = nth 1 stack 0.
Proof.
  unfold lazyerrors.pc, runtime.Callers. cbn [Z.to_nat Pos.to_nat Pos.iter_op
    Nat.add skipn repeat List.length].
  destruct stack as [|ctor [|caller rest]]; reflexivity.
Qed.

(** With no frame that far up, the location stays empty. *)
Lemma pc_no_frame (ctor : uintptr) : lazyerrors.pc at_ [ctor] = 0.
Proof. now rewrite pc_caller_of_caller. Qed.

Lemma pc_in_constructor (f : lazyerrors.func) (stack : list uintptr) :
  lazyerrors.pc at_ (at_ f :: stack) = spec.caller stack.
Proof. rewrite pc_caller_of_caller. reflexivity. Qed.

(** C9. The capturer passes over two frames of the stack it runs on, its own
    and the one of the constructor that called it, and returns the program
    counter of the constructor's caller; [New], [Error], [Errorf] and [Join]
    all call it directly, so each stores the location of its own caller. *)
Theorem pc_skips_two_frames (h : heap) (caller : uintptr) (rest : list uintptr) :
  (forall ctor : uintptr, lazyerrors.pc at_ (ctor :: caller :: rest) = caller) /\
  (forall own ctor : uintptr,
     fst (runtime.Callers (at_ lazyerrors.func_Callers :: own :: ctor :: caller :: rest)
            3 [0]) = [caller]) /\
  (forall s,
     fst (lazyerrors.New at_ h (caller :: rest) s)
     = lazyerror (fst (errors.New h s)) caller) /\
  (forall err,
     lazyerrors.Error at_ (caller :: rest) err
     = if is_nil err then Panic "err is nil" else Ok (lazyerror err caller)) /\
  (forall format a,
     fst (lazyerrors.Errorf at_ fmt_Errorf h (caller :: rest) format a)
     = lazyerror (fst (fmt_Errorf h format a)) caller) /\
  (forall errs,
     fst (lazyerrors.Join at_ h (caller :: rest) errs)
     = if is_nil (fst (errors.Join h errs)) then nil
       else lazyerror (fst (errors.Join h errs)) caller).
Proof.
  repeat apply conj.
  - intros ctor. now rewrite pc_caller_of_caller.
  - reflexivity.
  - intros s. unfold lazyerrors.New, errors.New. cbv beta iota. cbn [fst].
    now rewrite pc_in_constructor.
  - intros err. unfold lazyerrors.Error. now rewrite pc_in_constructor.
  - intros format a. unfold lazyerrors.Errorf.
    destruct (fmt_Errorf h format a) as [err h']. cbv beta iota. cbn [fst].
    now rewrite pc_in_constructor.
  - intros errs. unfold lazyerrors.Join.
    destruct (errors.Join h errs) as [err h']. cbv beta iota. cbn [fst].
    destruct (is_nil err); [reflexivity|]. cbn [fst].
    now rewrite pc_in_constructor.
Qed.

(** ** Wrapping and unwrapping *)

Lemma Error_Ok (stack : list uintptr) (err : error) :
  err <> nil ->
  lazyerrors.Error at_ stack err = Ok (lazyerror err (spec.caller stack)).
Proof.
  intros H. unfold lazyerrors.Error. rewrite pc_in_constructor.
  destruct err; [contradiction | reflexivity ..].
Qed.

Lemma wraps_chain (stacks : list (list uintptr)) (base : error) :
  base <> nil ->
  lazyerrors.wraps at_ stacks base = Ok (spec.chain (map spec.caller stacks) base).
Proof.
  intros Hb. induction stacks as [|stack inner IH]; [reflexivity|].
  cbn [lazyerrors.wraps map spec.chain]. rewrite IH. cbn [bind].
  apply Error_Ok. destruct inner; [exact Hb | discriminate].
Qed.





(** C5. [Error(nil)] panics with ["err is nil"] and returns no value; on every
    non-nil error it returns, and what it returns is a wrap of that error. *)
Theorem Error_nil_panics (stack : list uintptr) :
  lazyerrors.Error at_ stack nil = Panic "err is nil" /\
  (forall w, lazyerrors.Error at_ stack nil <> Ok w) /\
  (forall err, err <> nil ->
     exists pc, lazyerrors.Error at_ stack err = Ok (lazyerror err pc)).
Proof.
  repeat apply conj.
  - reflexivity.
  - intros w. discriminate.
  - intros err H. eexists. now apply Error_Ok.
Qed.

(** C6. [Join] drops the nil operands. When none is left it returns nil.
    Otherwise it returns a wrap whose one step of unwrapping is one error, the
    aggregate of the operands that are left, in order; for a single non-nil
    operand [e] that aggregate has [e] as its only part and renders as [e]
    does. The aggregate itself unwraps to nothing in one step. *)
Theorem Join_unwrap (h : heap) (stack : list uintptr) (errs : list error) :
  (filter (fun e => negb (is_nil e)) errs = [] ->
   lazyerrors.Join at_ h stack errs = (nil, h)) /\
  (filter (fun e => negb (is_nil e)) errs <> [] ->
   exists pc agg,
     fst (lazyerrors.Join at_ h stack errs) = lazyerror agg pc /\
     lazyerrors.Unwrap (fst (lazyerrors.Join at_ h stack errs)) = agg /\
     agg = joinError h (filter (fun e => negb (is_nil e)) errs) /\
     lazyerrors.Unwrap agg = nil) /\
  (forall e, e <> nil ->
     lazyerrors.Unwrap (fst (lazyerrors.Join at_ h stack [e])) = joinError h [e] /\
     forall Sprintf Next g,
       error_Error Sprintf Next g (joinError h [e]) = error_Error Sprintf Next g e).
Proof.
  unfold lazyerrors.Join, errors.Join. repeat apply conj.
  - intros ->. reflexivity.
  - intros H. destruct (filter (fun e => negb (is_nil e)) errs) as [|e l] eqn:E;
      [contradiction|].
    cbn. eexists _, _. repeat apply conj; reflexivity.
  - intros e He. split; [destruct e; [contradiction | reflexivity ..]|].
    intros Sprintf Next g. cbn [error_Error].
    destruct (error_Error Sprintf Next g e); reflexivity.
Qed.

End Capture.

(** ** Rendering *)

Section Rendering.

Variable Sprintf : string -> list any -> string.
Variable Next : uintptr -> runtime.Frame.

Local Abbreviation render := (error_Error Sprintf Next).

Lemma render_lazyerror (g : vars) (err : error) (pc : uintptr) :
  render g (lazyerror err pc) = Error Sprintf Next g (render g) err pc.
Proof. reflexivity. Qed.

(** A location that resolves to nothing leaves the message of the cause as it
    is. *)
Lemma render_unresolved (g : vars) (err : error) (pc : uintptr) :
  runtime.File (Next pc) = "" -> runtime.Function (Next pc) = "" ->
  render g (lazyerror err pc) = render g err.
Proof.
  intros Hf Hn. rewrite render_lazyerror. unfold Error, loc.
  destruct (pc =? 0); [reflexivity|]. now rewrite Hf, Hn.
Qed.

(** C4. A wrap whose location is empty (program counter 0: no frame was
    captured) renders exactly as its cause does, nothing added before or
    after. *)
Theorem render_empty_location (g : vars) (err : error) :
  loc Next err 0 = ("", 0, "") /\
  render g (lazyerror err 0) = render g err.
Proof. split; reflexivity. Qed.

(** With a location, the shortened file, the line, the shortened function and
    the message of the cause go to [Sprintf], in this order, under the current
    format. *)
Lemma render_located (g : vars) (err : error) (pc : uintptr) (msg : string) :
  spec.located Next pc -> render g err = Ok msg ->
  render g (lazyerror err pc)
  = Ok (Sprintf (Format g)
          [anyString (spec.shortened (runtime.File (Next pc)) (FileSegments g));
           anyInt (runtime.Line (Next pc));
           anyString (spec.shortened (runtime.Function (Next pc))
                        (FunctionSegments g));
           anyString msg]).
Proof.
  intros [Hpc Hloc] Hmsg. rewrite render_lazyerror. unfold Error, loc.
  destruct (Z.eqb_spec pc 0) as [|_]; [contradiction|].
  assert (E : String.eqb (runtime.File (Next pc)) ""
              && String.eqb (runtime.Function (Next pc)) "" = false).
  { destruct (String.eqb_spec (runtime.File (Next pc)) "") as [Hf|];
      [|reflexivity].
    destruct (String.eqb_spec (runtime.Function (Next pc)) "") as [Hn|];
      [|reflexivity].
    destruct Hloc; contradiction. }
  rewrite E, !shortened_Ok, Hmsg. reflexivity.
Qed.

(** The default format on the four operands of [Error]. *)
Lemma Sprintf_default (file function msg : string) (line : Z) :
  spec.is_Sprintf Sprintf ->
  Sprintf (Format init)
    [anyString file; anyInt line; anyString function; anyString msg]
  = file ++ ":" ++ fmt.itoa line ++ " (" ++ function ++ "): " ++ msg.
Proof.
  intros H. apply H. unfold fmt.Sprintf_fragment.
  cbn -[fmt.itoa append]. cbn [append]. now rewrite append_empty_r.
Qed.

Lemma render_default (err : error) (pc : uintptr) (msg : string) :
  spec.is_Sprintf Sprintf -> spec.located Next pc ->
  render init err = Ok msg ->
  render init (lazyerror err pc) = Ok (spec.location Next init pc ++ msg).
Proof.
  intros HS Hpc Hmsg. rewrite (render_located _ _ _ _ Hpc Hmsg).
  rewrite (Sprintf_default _ _ _ _ HS). unfold spec.location.
  now rewrite !append_assoc'.
Qed.

Lemma render_chain_default (pcs : list uintptr) (base : error) (msg : string) :
  spec.is_Sprintf Sprintf -> Forall (spec.located Next) pcs ->
  render init base = Ok msg ->
  render init (spec.chain pcs base)
  = Ok (fold_right (fun pc s => spec.location Next init pc ++ s) msg pcs).
Proof.
  intros HS Hpcs Hmsg. induction Hpcs as [|pc inner Hpc _ IH]; [exact Hmsg|].
  cbn [spec.chain fold_right]. now apply render_default.
Qed.

(** C2. Under the initial settings (one file segment, one function segment,
    format [%s:%d (%s): %s]) a wrap with a location renders as
    [<shortened-file>:<line> (<shortened-function>): ] followed by the whole
    rendering of its cause; so N wraps made one around the other render as N
    such locations, the outermost first, and then the message of the base
    error. *)
Theorem render_default_chain (at_ : lazyerrors.func -> uintptr)
    (cause : error) (pc : uintptr) (cmsg : string)
    (stacks : list (list uintptr)) (base : error) (msg : string) :
  spec.is_Sprintf Sprintf ->
  spec.located Next pc -> render init cause = Ok cmsg ->
  Forall (fun stack => spec.located Next (spec.caller stack)) stacks ->
  render init base = Ok msg ->
  render init (lazyerror cause pc)
  = Ok (spec.shortened (runtime.File (Next pc)) 1
        ++ ":" ++ fmt.itoa (runtime.Line (Next pc))
        ++ " (" ++ spec.shortened (runtime.Function (Next pc)) 1
        ++ "): " ++ cmsg) /\
  exists w,
    lazyerrors.wraps at_ stacks base = Ok w /\
    render init w
    = Ok (fold_right
            (fun stack s => spec.location Next init (spec.caller stack) ++ s)
            msg stacks).
Proof.
  intros HS Hpc Hc Hst Hb. split.
  - rewrite (render_default _ _ _ HS Hpc Hc). unfold spec.location.
    cbn [FileSegments FunctionSegments init]. now rewrite !append_assoc'.
  - assert (Hne : base <> nil) by (intros ->; discriminate).
    eexists. split; [now apply wraps_chain|].
    rewrite (render_chain_default _ _ msg HS); [|now apply Forall_map|exact Hb].
    f_equal. clear. induction stacks as [|st l IH]; [reflexivity|].
    cbn [map fold_right]. now rewrite IH.
Qed.

(** ** The settings over time *)

Local Abbreviation run := (app.run Sprintf Next).

Lemma run_app (g : vars) (l1 l2 : list app.action) :
  run g (l1 ++ l2)%list
  = (fst (run (fst (run g l1)) l2),
     (snd (run g l1) ++ snd (run (fst (run g l1)) l2))%list).
Proof.
  revert g. induction l1 as [|a l1 IH]; intros g.
  - cbn [app app.run fst snd]. now destruct (run g l2).
  - cbn [app app.run]. destruct (app.step Sprintf Next g a) as [g1 out].
    rewrite (IH g1). destruct (run g1 l1) as [g2 outs]. cbn [fst snd].
    destruct out; reflexivity.
Qed.

(** The variables change by the writes alone. *)
Lemma run_settings (g : vars) (l : list app.action) :
  fst (run g l) = spec.settings g l.
Proof.
  revert g. induction l as [|a l IH]; intros g; [reflexivity|].
  cbn [app.run spec.settings].
  destruct a; cbn [app.step]; rewrite <- IH;
    match goal with |- context [run ?g' l] => now destruct (run g' l) end.
Qed.



(** C8, amended. No rendering is kept: after any history of writes and calls,
    [Error()] returns what the settings then in force give, which are the
    initial ones changed by the writes alone; for a wrap with a location that
    is [Sprintf] under the current format, on the file and the function
    shortened by the current counts. *)
Theorem render_follows_settings (g : vars) (history : list app.action)
    (err : error) :
  fst (run g history) = spec.settings g history /\
  snd (run g (history ++ [app.CallError err]))
  = (snd (run g history) ++ [render (spec.settings g history) err])%list /\
  (forall cause pc msg,
     spec.located Next pc ->
     render (spec.settings g history) cause = Ok msg ->
     render (spec.settings g history) (lazyerror cause pc)
     = Ok (Sprintf (Format (spec.settings g history))
             [anyString (spec.shortened (runtime.File (Next pc))
                           (FileSegments (spec.settings g history)));
              anyInt (runtime.Line (Next pc));
              anyString (spec.shortened (runtime.Function (Next pc))
                           (FunctionSegments (spec.settings g history)));
              anyString msg])).
Proof.
  repeat apply conj.
  - apply run_settings.
  - rewrite run_app. cbn [app.run app.step fst snd].
    now rewrite run_settings.
  - intros cause pc msg. apply render_located.
Qed.

End Rendering.

(** ** The test binary *)

Lemma Sprintf_on_fragment_is_Sprintf : spec.is_Sprintf fmt.Sprintf_on_fragment.
Proof. intros format a s H. unfold fmt.Sprintf_on_fragment. now rewrite H. Qed.

Lemma located_line (line : Z) :
  (1 <=? line) && (line <=? 999) = true -> spec.located test.Next line.
Proof.
  intros H. unfold spec.located, test.Next. rewrite H.
  apply andb_true_iff in H as [H1 _]. apply Z.leb_le in H1.
  split; [lia | left; discriminate].
Qed.



(** C2 at work: the scenario of the specification, ["err"] wrapped three times
    at distinct call sites and rendered under the initial settings. *)
Lemma render_default_chain_witness :
  error_Error fmt.Sprintf_on_fragment test.Next init
    (lazyerror (errorString 1 "err") 95)
  = Ok "lazyerrors_test.go:95 (lazyerrors.TestErrors): err" /\
  exists w,
    lazyerrors.wraps test.at_
      [test.at_line 98; test.at_line 97; test.at_line 96]
      (errorString 1 "err") = Ok w /\
    error_Error fmt.Sprintf_on_fragment test.Next init w
    = Ok ("lazyerrors_test.go:98 (lazyerrors.TestErrors): "
          ++ "lazyerrors_test.go:97 (lazyerrors.TestErrors): "
          ++ "lazyerrors_test.go:96 (lazyerrors.TestErrors): err").
Proof.
  apply (render_default_chain fmt.Sprintf_on_fragment test.Next test.at_
           (errorString 1 "err") 95 "err"
           [test.at_line 98; test.at_line 97; test.at_line 96]
           (errorString 1 "err") "err").
  - exact Sprintf_on_fragment_is_Sprintf.
  - apply located_line. reflexivity.
  - reflexivity.
  - repeat (apply Forall_cons; [apply located_line; reflexivity|]).
    apply Forall_nil.
  - reflexivity.
Defined.



(** C8, the claim as stated fails: a change of a setting need not change the
    string. Under the format [%[3]s: %[4]s], which leaves the file out, the
    rendering is the same before and after [FileSegments] goes from 1 to 2;
    and under the initial format, the full path is shown both for
    [FileSegments = -1] and for [FileSegments = 9], the number of pieces of the
    path. *)
Lemma render_same_after_change :
  app.run fmt.Sprintf_on_fragment test.Next (mkVars 1 1 "%[3]s: %[4]s")
    [app.CallError (lazyerror (errorString 1 "err") 95);
     app.SetFileSegments 2;
     app.CallError (lazyerror (errorString 1 "err") 95)]
  = (mkVars 2 1 "%[3]s: %[4]s",
     [Ok "lazyerrors.TestErrors: err"; Ok "lazyerrors.TestErrors: err"]) /\
  app.run fmt.Sprintf_on_fragment test.Next (mkVars (-1) 1 (Format init))
    [app.CallError (lazyerror (errorString 1 "err") 95);
     app.SetFileSegments 9;
     app.CallError (lazyerror (errorString 1 "err") 95)]
  = (mkVars 9 1 (Format init),
     [Ok (test.test_go ++ ":95 (lazyerrors.TestErrors): err");
      Ok (test.test_go ++ ":95 (lazyerrors.TestErrors): err")]).
Proof. split; reflexivity. Qed.

(** Where the settings do matter ([TestFormat]): the error of the package
    initialiser, created under the initial settings, renders by the settings
    in force at each call. *)
Example TestFormat :
  app.run fmt.Sprintf_on_fragment test.Next init
    [app.CallError
       (fst (lazyerrors.New test.at_ 1%positive (test.at_line 175) "err package"));
     app.SetFileSegments 0;
     app.SetFunctionSegments (-1);
     app.SetFormat "%[3]s: %[4]s";
     app.CallError
       (fst (lazyerrors.New test.at_ 1%positive (test.at_line 175) "err package"))]
  = (mkVars 0 (-1) "%[3]s: %[4]s",
     [Ok "lazyerrors_test.go:175 (lazyerrors.init): err package";
      Ok "github.com/AlekSi/lazyerrors.init: err package"]).
Proof. reflexivity. Qed.

(** The scenario of the specification: function and message only, and no
    function segment. *)
Example function_and_message_only :
  error_Error fmt.Sprintf_on_fragment test.Next (mkVars 1 0 "%[3]s: %[4]s")
    (fst (lazyerrors.New test.at_ 1%positive (test.at_line 95) "err"))
  = Ok ": err".
Proof. reflexivity. Qed.

(** [TestPC]: the location is the line of the call, in the goroutine. *)
Example TestPC :
  error_Error fmt.Sprintf_on_fragment test.Next init
    (fst (lazyerrors.New test.at_ 1%positive [166; 60003] "err"))
  = Ok "lazyerrors_test.go:166 (lazyerrors.TestPC.func1): err".
Proof. reflexivity. Qed.

(** The example of the README: [Error] around an error that wraps [io.EOF]. *)
Example README :
  (err <- lazyerrors.Error test.at_ (test.at_line 286)
            (lazyerror (wrapError 2 "i'm not lazy: EOF" (errorString 1 "EOF")) 281) ;;
   error_Error fmt.Sprintf_on_fragment test.Next
     (mkVars 1 0 "%[1]s:%[2]d: %[4]s") err)
  = Ok "lazyerrors_test.go:286: lazyerrors_test.go:281: i'm not lazy: EOF".
Proof. reflexivity. Qed.

(** A base that wraps something itself keeps unwrapping after the wraps. *)
Example unwrap_past_the_wraps :
  lazyerrors.unwrap
    (lazyerror (wrapError 2 "i'm not lazy: EOF" (errorString 1 "EOF")) 281) 2
  = errorString 1 "EOF".
Proof. reflexivity. Qed.
(** The table of [TestShortPath]. *)
Example TestShortPath_absolute :
  map (shortPath "/absolute/path/lazyerrors.go") [-1; 0; 1; 2; 3; 4; 5]
  = map Ok ["/absolute/path/lazyerrors.go"; ""; "lazyerrors.go";
            "path/lazyerrors.go"; "absolute/path/lazyerrors.go";
            "/absolute/path/lazyerrors.go"; "/absolute/path/lazyerrors.go"].
Proof. reflexivity. Qed.

Example TestShortPath_root :
  map (shortPath "/lazyerrors.go") [-1; 0; 1; 2]
  = map Ok ["/lazyerrors.go"; ""; "lazyerrors.go"; "/lazyerrors.go"].
Proof. reflexivity. Qed.

Example TestShortPath_relative :
  map (shortPath "relative/path/lazyerrors.go") [-1; 0; 1; 2; 3; 4; 5]
  = map Ok ["relative/path/lazyerrors.go"; ""; "lazyerrors.go";
            "path/lazyerrors.go"; "relative/path/lazyerrors.go";
            "relative/path/lazyerrors.go"; "relative/path/lazyerrors.go"].
Proof. reflexivity. Qed.

Example TestShortPath_name :
  map (shortPath "lazyerrors.go") [-1; 0; 1; 2]
  = map Ok ["lazyerrors.go"; ""; "lazyerrors.go"; "lazyerrors.go"].
Proof. reflexivity. Qed.

(** * Further properties *)

(** ** [shorten] as the last pieces of the path *)

Lemma joined_snoc (leading : list string) (final : string) :
  spec.joined (leading ++ [final])%list = spec.joined leading ++ final.
Proof. rewrite joined_app. cbn. now rewrite append_empty_r. Qed.

Lemma last_n_snoc_one (leading : list string) (final : string) :
  spec.last_n 1 (leading ++ [final])%list = [final].
Proof.
  unfold spec.last_n. rewrite length_app. cbn [List.length].
  replace (List.length leading + 1 - 1)%nat with (List.length leading + 0)%nat by lia.
  rewrite skipn_app, Nat.add_0_r, skipn_all, Nat.sub_diag. reflexivity.
Qed.

Lemma last_n_all {A : Type} (n : nat) (l : list A) :
  (List.length l <= n)%nat -> spec.last_n n l = l.
Proof.
  intros H. unfold spec.last_n.
  now replace (List.length l - n)%nat with O by lia.
Qed.

Lemma last_n_length {A : Type} (n : nat) (l : list A) :
  List.length (spec.last_n n l) = Nat.min n (List.length l).
Proof. unfold spec.last_n. rewrite length_skipn. lia. Qed.

Lemma shorten_one_pieces (leading : list string) (final : string) :
  Forall (fun p => exists b, p = b ++ String slash EmptyString
                             /\ spec.has_byte slash b = false) leading ->
  spec.has_byte slash final = false ->
  shorten (spec.joined leading ++ final) 1 = Ok final.
Proof.
  intros Hlead Hfin. destruct leading as [|p leading _] using rev_ind.
  - cbn. now apply shorten_one_absent.
  - apply Forall_app in Hlead as [_ Hp].
    inversion Hp as [|? ? (b & -> & _) _]; subst.
    rewrite joined_snoc.
    replace ((spec.joined leading ++ b ++ String slash "") ++ final)
      with ((spec.joined leading ++ b) ++ String slash final)
      by (now rewrite !append_assoc').
    now apply shorten_one_split.
Qed.

(** One formula for every count from 0 on: the last [segments] pieces. *)
Lemma shorten_last_n (path : string) (segments : Z) :
  0 <= segments ->
  shorten path segments
  = Ok (spec.joined (spec.last_n (Z.to_nat segments)
                       (strings.SplitAfter path slash))).
Proof.
  intros H. destruct (Z.eq_dec segments 0) as [->|H0].
  - rewrite shorten_zero. unfold spec.last_n. cbn [Z.to_nat].
    now rewrite Nat.sub_0_r, skipn_all.
  - destruct (Z.eq_dec segments 1) as [->|H1]; [|apply shorten_many; lia].
    destruct (SplitAfter_pieces path) as (Hj & leading & final & Hps & Hlead & Hfin).
    rewrite Hps. rewrite Hps, joined_snoc in Hj.
    change (Z.to_nat 1) with 1%nat.
    rewrite last_n_snoc_one. cbn [spec.joined fold_right].
    rewrite append_empty_r, <- Hj. now apply shorten_one_pieces.
Qed.

Lemma pieces_skipn (i : nat) (ps : list string) (s : string) :
  spec.pieces ps s -> (i < List.length ps)%nat ->
  spec.pieces (skipn i ps) (spec.joined (skipn i ps)).
Proof.
  intros (_ & leading & final & -> & Hlead & Hfin) Hi.
  rewrite length_app in Hi. cbn [List.length] in Hi.
  split; [reflexivity|]. exists (skipn i leading), final.
  rewrite skipn_app. replace (i - List.length leading)%nat with O by lia.
  repeat apply conj; [reflexivity | | exact Hfin].
  rewrite Forall_forall in *. intros p Hp. apply Hlead.
  rewrite <- (firstn_skipn i leading). apply in_or_app. now right.
Qed.

Lemma count_byte_append (c : ascii) (a b : string) :
  spec.count_byte c (a ++ b)
  = (spec.count_byte c a + spec.count_byte c b)%nat.
Proof.
  induction a as [|x a IH]; [reflexivity|]. cbn [append spec.count_byte].
  rewrite IH. lia.
Qed.

Lemma count_byte_absent (c : ascii) (s : string) :
  spec.has_byte c s = false -> spec.count_byte c s = O.
Proof.
  induction s as [|a s IH]; [reflexivity|]. cbn [spec.has_byte spec.count_byte].
  intros H. apply orb_false_iff in H as [-> Hs]. now rewrite (IH Hs).
Qed.

Lemma count_byte_leading (leading : list string) :
  Forall (fun p => exists b, p = b ++ String slash EmptyString
                             /\ spec.has_byte slash b = false) leading ->
  spec.count_byte slash (spec.joined leading) = List.length leading.
Proof.
  induction 1 as [|p l (b & -> & Hb) _ IH]; [reflexivity|].
  cbn [spec.joined fold_right List.length]. fold (spec.joined l).
  rewrite !count_byte_append, IH, (count_byte_absent _ _ Hb). cbn. lia.
Qed.

(** X1. From count 0 on, [shorten] gives the last [segments] pieces of the path:
    the branches for 0 and for 1 agree with the general one. *)
Theorem shorten_is_last_pieces (path : string) (segments : Z)
    (ps : list string) :
  0 <= segments -> spec.pieces ps path ->
  shorten path segments
  = Ok (spec.joined (spec.last_n (Z.to_nat segments) ps)).
Proof.
  intros H Hps. rewrite (pieces_unique _ _ Hps). now apply shorten_last_n.
Qed.

Lemma shorten_is_last_pieces_witness :
  shorten "a/b/c" 1 = Ok (spec.joined (spec.last_n (Z.to_nat 1) ["a/"; "b/"; "c"])).
Proof.
  apply (shorten_is_last_pieces "a/b/c" 1 ["a/"; "b/"; "c"]); [lia|].
  split; [reflexivity|]. exists ["a/"; "b/"], "c".
  repeat apply conj; [reflexivity | | reflexivity].
  apply Forall_cons; [exists "a"; split; reflexivity|].
  apply Forall_cons; [exists "b"; split; reflexivity|].
  apply Forall_nil.
Defined.

(** X2. Asking for more segments never shows less: from count 0 on, the result
    for a smaller count is a suffix of the result for a larger count, and of
    the result for a negative count, the whole path. *)
Theorem shorten_monotone (path : string) (j k : Z) :
  0 <= j -> j <= k \/ k < 0 ->
  exists rj rk,
    shorten path j = Ok rj /\ shorten path k = Ok rk /\ spec.suffix rj rk.
Proof.
  intros Hj [Hk|Hk].
  - eexists _, _. repeat apply conj; [now apply shorten_last_n
                                     | apply shorten_last_n; lia |].
    set (ps := strings.SplitAfter path slash). unfold spec.last_n.
    set (n := List.length ps).
    replace (n - Z.to_nat j)%nat
      with ((n - Z.to_nat j - (n - Z.to_nat k)) + (n - Z.to_nat k))%nat by lia.
    rewrite <- skipn_skipn. apply joined_skipn_suffix.
  - eexists _, _. repeat apply conj; [now apply shorten_last_n
                                     | now apply shorten_negative |].
    destruct (SplitAfter_pieces path) as [Hjn _]. rewrite <- Hjn at 2.
    apply joined_skipn_suffix.
Qed.

Lemma shorten_monotone_witness :
  exists rj rk,
    shorten "/absolute/path/lazyerrors.go" 2 = Ok rj /\
    shorten "/absolute/path/lazyerrors.go" 3 = Ok rk /\ spec.suffix rj rk.
Proof.
  apply (shorten_monotone "/absolute/path/lazyerrors.go" 2 3); [lia | left; lia].
Defined.

(** X3. Shortening twice by the same count changes nothing more. *)
Theorem shorten_idempotent (path : string) (segments : Z) :
  exists r, shorten path segments = Ok r /\ shorten r segments = Ok r.
Proof.
  destruct (Z.lt_ge_cases segments 0) as [H|H].
  - exists path. split; now apply shorten_negative.
  - destruct (Z.eq_dec segments 0) as [->|H0];
      [exists ""; split; apply shorten_zero|].
    eexists. split; [now apply shorten_last_n|].
    pose proof (SplitAfter_pieces path) as Hp.
    pose proof (SplitAfter_length path) as Hlen.
    set (ps := strings.SplitAfter path slash) in *.
    rewrite shorten_last_n by exact H. do 2 f_equal.
    assert (Hq : spec.pieces (spec.last_n (Z.to_nat segments) ps)
                   (spec.joined (spec.last_n (Z.to_nat segments) ps))).
    { apply (pieces_skipn _ _ _ Hp). lia. }
    rewrite <- (pieces_unique _ _ Hq). apply last_n_all.
    rewrite last_n_length. lia.
Qed.

(** X4. From count 1 on, the result holds [segments - 1] separators, or all the
    separators of the path when it has fewer. *)
Theorem shorten_separators (path : string) (segments : Z) :
  1 <= segments ->
  exists r,
    shorten path segments = Ok r /\
    Z.of_nat (spec.count_byte slash r)
    = Z.min (segments - 1) (Z.of_nat (spec.count_byte slash path)).
Proof.
  intros H. eexists. split; [apply shorten_last_n; lia|].
  destruct (SplitAfter_pieces path) as (Hj & leading & final & Hps & Hlead & Hfin).
  rewrite Hps in *. rewrite <- Hj, joined_snoc, count_byte_append.
  rewrite (count_byte_leading _ Hlead), (count_byte_absent _ _ Hfin).
  unfold spec.last_n. rewrite length_app. cbn [List.length].
  set (i := (List.length leading + 1 - Z.to_nat segments)%nat).
  rewrite skipn_app. replace (i - List.length leading)%nat with O by lia.
  cbn [skipn]. rewrite joined_snoc, count_byte_append.
  rewrite (count_byte_absent _ _ Hfin), count_byte_leading.
  - rewrite length_skipn. lia.
  - rewrite Forall_forall in *. intros p Hp. apply Hlead.
    rewrite <- (firstn_skipn i leading). apply in_or_app. now right.
Qed.

Lemma shorten_separators_witness :
  exists r,
    shorten "/absolute/path/lazyerrors.go" 2 = Ok r /\
    Z.of_nat (spec.count_byte slash r)
    = Z.min (2 - 1)
        (Z.of_nat (spec.count_byte slash "/absolute/path/lazyerrors.go")).
Proof. apply (shorten_separators "/absolute/path/lazyerrors.go" 2). lia. Defined.

(** ** Induction on errors, through the parts of an aggregate *)

Lemma error_nested_ind (P : error -> Prop) :
  P nil ->
  (forall p s, P (errorString p s)) ->
  (forall p msg err, P err -> P (wrapError p msg err)) ->
  (forall p errs, Forall P errs -> P (joinError p errs)) ->
  (forall err pc, P err -> P (lazyerror err pc)) ->
  forall err, P err.
Proof.
  intros Hnil Hstring Hwrap Hjoin Hlazy. fix IH 1.
  intros [|p s|p msg err|p errs|err pc].
  - exact Hnil.
  - apply Hstring.
  - apply Hwrap, IH.
  - apply Hjoin. revert errs. fix IHerrs 1. intros [|e errs].
    + constructor.
    + constructor; [apply IH | apply IHerrs].
  - apply Hlazy, IH.
Qed.

(** ** More on rendering *)

Section MoreRendering.

Variable Sprintf : string -> list any -> string.
Variable Next : uintptr -> runtime.Frame.
Variable at_ : lazyerrors.func -> uintptr.

Local Abbreviation render := (error_Error Sprintf Next).
Local Abbreviation render0 := (lazyerror0.error_Error Sprintf Next).

(** A wrap depends on its cause through the message of the cause alone. *)
Lemma render_congruence (g : vars) (c c' : error) (pc : uintptr) :
  render g c = render g c' ->
  render g (lazyerror c pc) = render g (lazyerror c' pc).
Proof.
  intros H. rewrite !render_lazyerror. unfold Error.
  destruct (loc Next c pc) as [[file line] function] eqn:E.
  assert (E' : loc Next c' pc = (file, line, function)) by exact E.
  rewrite E', H. reflexivity.
Qed.

Lemma render_not_resolved (g : vars) (c : error) (pc : uintptr) :
  spec.resolved Next pc = false ->
  render g (lazyerror c pc) = render g c.
Proof.
  unfold spec.resolved. intros H. rewrite render_lazyerror. unfold Error, loc.
  destruct (pc =? 0); [reflexivity|]. cbn [negb andb] in H.
  apply negb_false_iff in H. now rewrite H.
Qed.

Lemma resolved_located (pc : uintptr) :
  spec.resolved Next pc = true <-> spec.located Next pc.
Proof.
  unfold spec.resolved, spec.located. rewrite andb_true_iff, !negb_true_iff.
  rewrite andb_false_iff, Z.eqb_neq.
  destruct (String.eqb_spec (runtime.File (Next pc)) "");
    destruct (String.eqb_spec (runtime.Function (Next pc)) "");
    intuition congruence.
Qed.

(** X5. Wraps whose location resolves to nothing leave no trace in the text,
    wherever they stand in a chain: the chain renders as the chain without
    them. *)
Theorem render_skips_unresolved (g : vars) (pcs : list uintptr) (base : error) :
  render g (spec.chain pcs base)
  = render g (spec.chain (filter (spec.resolved Next) pcs) base).
Proof.
  induction pcs as [|pc inner IH]; [reflexivity|].
  cbn [spec.chain filter]. destruct (spec.resolved Next pc) eqn:E.
  - cbn [spec.chain]. now apply render_congruence.
  - now rewrite render_not_resolved.
Qed.

(** X6. With no frame above the constructor on the stack, the program counter
    stored is 0 and the new error renders as what it holds: [New(s)] as [s],
    [Error(err)] as [err], [Join(errs...)] as the aggregate. *)
Theorem render_without_caller (g : vars) (h : heap) :
  (forall s, render g (fst (lazyerrors.New at_ h [] s)) = Ok s) /\
  (forall err, err <> nil ->
     exists w, lazyerrors.Error at_ [] err = Ok w /\ render g w = render g err) /\
  (forall errs,
     render g (fst (lazyerrors.Join at_ h [] errs))
     = render g (fst (errors.Join h errs))).
Proof.
  repeat apply conj.
  - intros s. reflexivity.
  - intros err H. exists (lazyerror err 0). split; [|reflexivity].
    now rewrite (Error_Ok at_ [] err H).
  - intros errs. unfold lazyerrors.Join.
    destruct (errors.Join h errs) as [err h']. cbv beta iota. cbn [fst].
    destruct err; reflexivity.
Qed.

(** The loop of [joinError.Error()]. *)
Lemma Join_fold (ms : list string) (m0 : string) :
  strings.Join (m0 :: ms) newline
  = fold_left (fun b m => b ++ newline ++ m) ms m0.
Proof.
  revert m0. induction ms as [|m ms IH]; intros m0; [reflexivity|].
  cbn [fold_left]. rewrite <- IH.
  change (strings.Join (m0 :: m :: ms) newline)
    with (m0 ++ newline ++ strings.Join (m :: ms) newline).
  destruct ms as [|m' ms]; [reflexivity|].
  change (strings.Join (m :: m' :: ms) newline)
    with (m ++ newline ++ strings.Join (m' :: ms) newline).
  change (strings.Join ((m0 ++ newline ++ m) :: m' :: ms) newline)
    with ((m0 ++ newline ++ m) ++ newline ++ strings.Join (m' :: ms) newline).
  now rewrite !append_assoc'.
Qed.

(** An aggregate renders as the messages of its parts, one per line. *)
Lemma render_joinError (g : vars) (p : ptr) (errs : list error)
    (msgs : list string) :
  errs <> [] ->
  Forall2 (fun e m => render g e = Ok m) errs msgs ->
  render g (joinError p errs) = Ok (strings.Join msgs newline).
Proof.
  intros Hne H. destruct H as [|e0 m0 rest ms H0 Hrest]; [contradiction|].
  rewrite Join_fold. cbn [error_Error]. rewrite H0. cbn [bind].
  clear H0 Hne. revert m0. induction Hrest as [|e m rest ms He _ IH]; intros m0.
  - reflexivity.
  - cbn [fold_left]. rewrite He. cbn [bind]. apply IH.
Qed.

(** X7. [Join] renders with one location for the whole aggregate, followed by
    the messages of the non-nil operands, one per line. *)
Theorem render_Join (g : vars) (h : heap) (stack : list uintptr)
    (errs : list error) (msgs : list string) :
  spec.located Next (spec.caller stack) ->
  filter (fun e => negb (is_nil e)) errs <> [] ->
  Forall2 (fun e m => render g e = Ok m)
    (filter (fun e => negb (is_nil e)) errs) msgs ->
  render g (fst (lazyerrors.Join at_ h stack errs))
  = Ok (Sprintf (Format g)
          [anyString (spec.shortened (runtime.File (Next (spec.caller stack)))
                        (FileSegments g));
           anyInt (runtime.Line (Next (spec.caller stack)));
           anyString (spec.shortened
                        (runtime.Function (Next (spec.caller stack)))
                        (FunctionSegments g));
           anyString (strings.Join msgs newline)]).
Proof.
  intros Hloc Hne Hmsgs. unfold lazyerrors.Join, errors.Join.
  destruct (filter (fun e => negb (is_nil e)) errs) as [|e l] eqn:E;
    [contradiction|].
  cbn [List.length Nat.eqb is_nil fst]. rewrite pc_in_constructor.
  apply (render_located Sprintf Next g _ _ _ Hloc).
  now apply render_joinError.
Qed.

(** X8. [Error()] never panics on a well-formed error, and neither does
    [GoString()] on a well-formed wrap. *)
Theorem render_never_panics (g : vars) (err : error) :
  spec.wf err = true ->
  (exists s, render g err = Ok s) /\
  (forall le_err le_pc, err = lazyerror le_err le_pc ->
     exists s, GoString Sprintf Next g le_err le_pc = Ok s).
Proof.
  intros Hwf.
  assert (H : exists s, render g err = Ok s).
  { revert Hwf. induction err as [|p s|p msg err _|p errs IH|err pc IH]
      using error_nested_ind; intros Hwf.
    - discriminate.
    - now eexists.
    - now eexists.
    - assert (Hall : forallb spec.wf errs = true)
        by (destruct errs; [discriminate | exact Hwf]).
      assert (Hne : errs <> []) by (destruct errs; [discriminate | congruence]).
      assert (Hm : exists msgs, Forall2 (fun e m => render g e = Ok m) errs msgs).
      { clear Hwf Hne. induction IH as [|e l He _ IHl].
        - exists []. constructor.
        - cbn [forallb] in Hall. apply andb_true_iff in Hall as [H1 H2].
          destruct (He H1) as [m Hm]. destruct (IHl H2) as [ms Hms].
          exists (m :: ms). now constructor. }
      destruct Hm as [msgs Hm]. exists (strings.Join msgs newline).
      now apply render_joinError.
    - destruct (IH Hwf) as [s Hs]. rewrite render_lazyerror. unfold Error.
      destruct (loc Next err pc) as [[file line] function].
      destruct (String.eqb file "" && String.eqb function "");
        [now exists s|].
      rewrite !shortened_Ok, Hs. cbn [bind]. now eexists. }
  split; [exact H|]. intros le_err le_pc ->. unfold GoString.
  destruct H as [s Hs]. rewrite render_lazyerror in Hs. rewrite Hs.
  cbn [bind]. now eexists.
Qed.

(** X9. The constructors keep errors well-formed: [New] always builds a
    well-formed error, [Error] builds one from one, and [Join] returns nil or
    a well-formed error when each operand is nil or well-formed. *)
Theorem constructors_keep_wf (h : heap) (stack : list uintptr) :
  (forall s, spec.wf (fst (lazyerrors.New at_ h stack s)) = true) /\
  (forall err, spec.wf err = true ->
     exists w, lazyerrors.Error at_ stack err = Ok w /\ spec.wf w = true) /\
  (forall errs,
     Forall (fun e => e = nil \/ spec.wf e = true) errs ->
     fst (lazyerrors.Join at_ h stack errs) = nil
     \/ spec.wf (fst (lazyerrors.Join at_ h stack errs)) = true).
Proof.
  repeat apply conj.
  - intros s. reflexivity.
  - intros err H. exists (lazyerror err (spec.caller stack)).
    split; [|exact H]. apply Error_Ok. intros ->. discriminate.
  - intros errs H. unfold lazyerrors.Join, errors.Join.
    destruct (filter (fun e => negb (is_nil e)) errs) as [|e l] eqn:E;
      [now left|].
    right. cbn [List.length Nat.eqb is_nil fst spec.wf]. rewrite <- E.
    apply forallb_forall. intros x Hx. apply filter_In in Hx as [Hin Hnn].
    rewrite Forall_forall in H. destruct (H x Hin) as [->|Hw];
      [discriminate | exact Hw].
Qed.

(** ** The two revisions of [Error()] *)

Lemma render0_lazyerror (g : vars) (err : error) (pc : uintptr) :
  render0 g (lazyerror err pc)
  = lazyerror0.Error Sprintf Next g (render0 g) err pc.
Proof. reflexivity. Qed.

Lemma revisions_agree_once (g : vars) (c : error) (pc : uintptr) :
  spec.whole Next pc -> render0 g c = render g c ->
  render0 g (lazyerror c pc) = render g (lazyerror c pc).
Proof.
  intros Hw Hc. rewrite render0_lazyerror, render_lazyerror.
  unfold lazyerror0.Error, Error, loc, shortPath.
  destruct (pc =? 0); [exact Hc|]. rewrite Hc.
  destruct (String.eqb_spec (runtime.File (Next pc)) "") as [Hf|Hf];
    destruct (String.eqb_spec (runtime.Function (Next pc)) "") as [Hn|Hn];
    try reflexivity.
  - elim Hn. now apply Hw.
  - elim Hf. now apply Hw.
Qed.

(** X10. The two revisions of [Error()] return the same string for every chain
    of wraps whose frames have both a file and a function, or neither. *)
Theorem revisions_agree (g : vars) (pcs : list uintptr) (base : error) :
  Forall (spec.whole Next) pcs -> render0 g base = render g base ->
  render0 g (spec.chain pcs base) = render g (spec.chain pcs base).
Proof.
  intros Hpcs Hbase. induction Hpcs as [|pc inner Hpc _ IH]; [exact Hbase|].
  cbn [spec.chain]. now apply revisions_agree_once.
Qed.


(** ** Membership in the chain *)

Lemma equal_refl (err : error) : errors.equal err err = true.
Proof.
  induction err as [|p s|p msg err _|p errs _|err pc IH] using error_nested_ind;
    cbn [errors.equal]; try apply Pos.eqb_refl; [reflexivity|].
  now rewrite IH, Z.eqb_refl.
Qed.

Lemma equal_nil_r (err : error) : err <> nil -> errors.equal err nil = false.
Proof. destruct err; [contradiction | reflexivity ..]. Qed.

Lemma Is_refl (err : error) : lazyerrors.Is err err = true.
Proof.
  unfold lazyerrors.Is, errors.Is. destruct (is_nil err || is_nil err);
    [apply equal_refl|].
  destruct err; cbn [errors.is_ andb]; rewrite ?equal_refl, ?Pos.eqb_refl;
    reflexivity.
Qed.

Lemma Is_is (err target : error) :
  err <> nil -> lazyerrors.Is err target = true ->
  target <> nil /\ errors.is_ err target true = true.
Proof.
  intros He H. unfold lazyerrors.Is, errors.Is in H.
  destruct target.
  - rewrite orb_true_r, (equal_nil_r _ He) in H. discriminate.
  - destruct err; [contradiction | split; [discriminate | exact H] ..].
  - destruct err; [contradiction | split; [discriminate | exact H] ..].
  - destruct err; [contradiction | split; [discriminate | exact H] ..].
  - destruct err; [contradiction | split; [discriminate | exact H] ..].
Qed.

Lemma is_Is (err target : error) :
  err <> nil -> target <> nil -> errors.is_ err target true = true ->
  lazyerrors.Is err target = true.
Proof.
  intros He Ht H. unfold lazyerrors.Is, errors.Is.
  destruct err; [contradiction|..]; (destruct target; [contradiction|..]);
    exact H.
Qed.

(** A wrap has what its cause has. *)
Lemma Is_wrap (c target : error) (pc : uintptr) :
  c <> nil -> lazyerrors.Is c target = true ->
  lazyerrors.Is (lazyerror c pc) target = true.
Proof.
  intros Hc H. destruct (Is_is _ _ Hc H) as [Ht Hi].
  apply is_Is; [discriminate | exact Ht|].
  cbn [errors.is_ andb lazyerror.Unwrap].
  destruct (errors.equal (lazyerror c pc) target); [reflexivity|].
  destruct c; [contradiction | exact Hi ..].
Qed.

Lemma chain_not_nil (pcs : list uintptr) (base : error) :
  base <> nil -> spec.chain pcs base <> nil.
Proof. intros H. destruct pcs; [exact H | discriminate]. Qed.

Lemma Is_chain_unwrap (pcs : list uintptr) (base : error) (i : nat) :
  base <> nil -> (i <= List.length pcs)%nat ->
  lazyerrors.Is (spec.chain pcs base)
    (lazyerrors.unwrap (spec.chain pcs base) i) = true.
Proof.
  intros Hb. revert i. induction pcs as [|pc inner IH]; intros i Hi.
  - cbn in Hi. replace i with O by lia. apply Is_refl.
  - destruct i as [|i]; [apply Is_refl|].
    cbn [spec.chain List.length] in *.
    change (lazyerrors.unwrap (lazyerror (spec.chain inner base) pc) (S i))
      with (lazyerrors.unwrap (spec.chain inner base) i).
    apply Is_wrap; [now apply chain_not_nil | apply IH; lia].
Qed.

(** X12. Around a base of the types of this development (the pointers the
    standard library returns and wraps of them, all comparable), every error
    met while unwrapping a chain of wraps is found in the chain by [Is]: the
    wrap itself, each wrap below it, and the base. *)
Theorem Is_along_chain (stacks : list (list uintptr)) (base : error) :
  base <> nil ->
  exists w,
    lazyerrors.wraps at_ stacks base = Ok w /\
    forall i, (i <= List.length stacks)%nat ->
      lazyerrors.Is w (lazyerrors.unwrap w i) = true.
Proof.
  intros Hb. eexists. split; [now apply wraps_chain|].
  intros i Hi. apply Is_chain_unwrap; [exact Hb | now rewrite length_map].
Qed.

(** X13. Wrapping hides nothing from [Is]: a target found in [err] is found in
    [Error(err)], and in every [Join] that has [err] among its operands. *)
Theorem Is_through_wrapping (h : heap) (stack : list uintptr)
    (err target : error) :
  err <> nil -> lazyerrors.Is err target = true ->
  (exists w,
     lazyerrors.Error at_ stack err = Ok w /\ lazyerrors.Is w target = true) /\
  (forall errs, In err errs ->
     lazyerrors.Is (fst (lazyerrors.Join at_ h stack errs)) target = true).
Proof.
  intros He H. split.
  - eexists. split; [now apply Error_Ok | now apply Is_wrap].
  - intros errs Hin. unfold lazyerrors.Join, errors.Join.
    assert (Hf : In err (filter (fun e => negb (is_nil e)) errs)).
    { apply filter_In. split; [exact Hin|]. now destruct err. }
    destruct (filter (fun e => negb (is_nil e)) errs) as [|e l] eqn:E;
      [contradiction|].
    cbn [List.length Nat.eqb is_nil fst]. apply Is_wrap; [discriminate|].
    destruct (Is_is _ _ He H) as [Ht Hi].
    apply is_Is; [discriminate | exact Ht|].
    cbn [errors.is_ andb].
    destruct (errors.equal (joinError h (e :: l)) target); [reflexivity|].
    apply existsb_exists. exists err. split; [exact Hf | exact Hi].
Qed.

End MoreRendering.

(** ** The further properties on the test binary *)

Lemma render_never_panics_witness :
  (exists s,
     error_Error fmt.Sprintf_on_fragment test.Next init
       (lazyerror (joinError 3 [errorString 1 "a"; errorString 2 "b"]) 95)
     = Ok s) /\
  (forall le_err le_pc,
     lazyerror (joinError 3 [errorString 1 "a"; errorString 2 "b"]) 95
     = lazyerror le_err le_pc ->
     exists s,
       GoString fmt.Sprintf_on_fragment test.Next init le_err le_pc = Ok s).
Proof.
  apply (render_never_panics fmt.Sprintf_on_fragment test.Next init
           (lazyerror (joinError 3 [errorString 1 "a"; errorString 2 "b"]) 95)).
  reflexivity.
Defined.

Lemma render_Join_witness :
  error_Error fmt.Sprintf_on_fragment test.Next init
    (fst (lazyerrors.Join test.at_ 3%positive (test.at_line 95)
            [nil; errorString 1 "a"; nil; errorString 2 "b"]))
  = Ok (fmt.Sprintf_on_fragment (Format init)
          [anyString (spec.shortened
                        (runtime.File (test.Next (spec.caller (test.at_line 95))))
                        (FileSegments init));
           anyInt (runtime.Line (test.Next (spec.caller (test.at_line 95))));
           anyString (spec.shortened
                        (runtime.Function
                           (test.Next (spec.caller (test.at_line 95))))
                        (FunctionSegments init));
           anyString (strings.Join ["a"; "b"] newline)]).
Proof.
  apply (render_Join fmt.Sprintf_on_fragment test.Next test.at_ init 3%positive
           (test.at_line 95) [nil; errorString 1 "a"; nil; errorString 2 "b"]
           ["a"; "b"]).
  - apply located_line. reflexivity.
  - discriminate.
  - repeat constructor.
Defined.

Lemma revisions_agree_witness :
  lazyerror0.error_Error fmt.Sprintf_on_fragment test.Next init
    (spec.chain [95; 0; 96] (errorString 1 "err"))
  = error_Error fmt.Sprintf_on_fragment test.Next init
      (spec.chain [95; 0; 96] (errorString 1 "err")).
Proof.
  apply (revisions_agree fmt.Sprintf_on_fragment test.Next init [95; 0; 96]
           (errorString 1 "err")); [|reflexivity].
  repeat (apply Forall_cons;
          [split; vm_compute; intros H; first [discriminate H | reflexivity]|]).
  apply Forall_nil.
Defined.


Lemma Is_along_chain_witness :
  exists w,
    lazyerrors.wraps test.at_
      [test.at_line 98; test.at_line 97; test.at_line 96]
      (errorString 1 "err") = Ok w /\
    forall i, (i <= 3)%nat ->
      lazyerrors.Is w (lazyerrors.unwrap w i) = true.
Proof.
  apply (Is_along_chain test.at_
           [test.at_line 98; test.at_line 97; test.at_line 96]
           (errorString 1 "err")).
  discriminate.
Defined.

(** The example of the README: [errors.Is(err, io.EOF)] through [Error] and the
    wrap made by [Errorf]. *)
Lemma Is_through_wrapping_witness :
  (exists w,
     lazyerrors.Error test.at_ (test.at_line 286)
       (lazyerror (wrapError 2 "i'm not lazy: EOF" (errorString 1 "EOF")) 281)
     = Ok w /\
     lazyerrors.Is w (errorString 1 "EOF") = true) /\
  (forall errs,
     In (lazyerror (wrapError 2 "i'm not lazy: EOF" (errorString 1 "EOF")) 281)
       errs ->
     lazyerrors.Is
       (fst (lazyerrors.Join test.at_ 3%positive (test.at_line 286) errs))
       (errorString 1 "EOF") = true).
Proof.
  apply (Is_through_wrapping test.at_ 3%positive (test.at_line 286)
           (lazyerror (wrapError 2 "i'm not lazy: EOF" (errorString 1 "EOF")) 281)
           (errorString 1 "EOF")); [discriminate | reflexivity].
Defined.

(** What the revisions make of a frame without a file. *)
Example revisions_without_files :
  lazyerror0.error_Error fmt.Sprintf_on_fragment test.Next_without_files init
    (lazyerror (errorString 1 "err") 95) = Ok "err" /\
  error_Error fmt.Sprintf_on_fragment test.Next_without_files init
    (lazyerror (errorString 1 "err") 95)
  = Ok ":0 (lazyerrors.TestErrors): err".
Proof. split; reflexivity. Qed.

(** [Join] on the test binary: one location, the parts below each other. *)
Example Join_rendering :
  error_Error fmt.Sprintf_on_fragment test.Next init
    (fst (lazyerrors.Join test.at_ 3%positive (test.at_line 95)
            [nil; errorString 1 "a"; nil; errorString 2 "b"]))
  = Ok ("lazyerrors_test.go:95 (lazyerrors.TestErrors): a" ++ newline ++ "b").
Proof. reflexivity. Qed.

(** ** Any segment counts, and errors made anew *)

(** X14. Under the initial format and any segment counts, a chain of wraps with
    locations renders as those locations, each shortened by the counts in
    force at the call, the outermost first, and then the message of the
    base. *)
Theorem render_chain_counts (Sprintf : string -> list any -> string)
    (Next : uintptr -> runtime.Frame) (g : vars) (pcs : list uintptr)
    (base : error) (msg : string) :
  spec.is_Sprintf Sprintf -> Format g = Format init ->
  Forall (spec.located Next) pcs ->
  error_Error Sprintf Next g base = Ok msg ->
  error_Error Sprintf Next g (spec.chain pcs base)
  = Ok (fold_right (fun pc s => spec.location Next g pc ++ s) msg pcs).
Proof.
  intros HS Hfmt Hpcs Hmsg. induction Hpcs as [|pc inner Hpc _ IH];
    [exact Hmsg|].
  cbn [spec.chain fold_right].
  rewrite (render_located Sprintf Next g _ _ _ Hpc IH), Hfmt.
  rewrite (Sprintf_default Sprintf _ _ _ _ HS). unfold spec.location.
  now rewrite !append_assoc'.
Qed.

Lemma render_chain_counts_witness :
  error_Error fmt.Sprintf_on_fragment test.Next (mkVars 2 0 (Format init))
    (spec.chain [97; 96] (errorString 1 "err"))
  = Ok (fold_right
          (fun pc s =>
             spec.location test.Next (mkVars 2 0 (Format init)) pc ++ s)
          "err" [97; 96]).
Proof.
  apply (render_chain_counts fmt.Sprintf_on_fragment test.Next
           (mkVars 2 0 (Format init)) [97; 96] (errorString 1 "err") "err").
  - exact Sprintf_on_fragment_is_Sprintf.
  - reflexivity.
  - repeat (apply Forall_cons; [apply located_line; reflexivity|]).
    apply Forall_nil.
  - reflexivity.
Defined.

Example render_two_file_segments :
  error_Error fmt.Sprintf_on_fragment test.Next (mkVars 2 0 (Format init))
    (spec.chain [97; 96] (errorString 1 "err"))
  = Ok ("lazyerrors/lazyerrors_test.go:97 (): "
        ++ "lazyerrors/lazyerrors_test.go:96 (): err").
Proof. reflexivity. Qed.

(** X15. [New] makes a new error at each call: two errors made one after the
    other with the same text at the same place render alike, and yet neither
    is found in the other by [Is]. *)
Theorem New_is_new (at_ : lazyerrors.func -> uintptr) (h : heap)
    (stack : list uintptr) (s : string) :
  lazyerrors.Is
    (fst (lazyerrors.New at_ h stack s))
    (fst (lazyerrors.New at_ (snd (lazyerrors.New at_ h stack s)) stack s))
  = false /\
  lazyerrors.Is
    (fst (lazyerrors.New at_ (snd (lazyerrors.New at_ h stack s)) stack s))
    (fst (lazyerrors.New at_ h stack s))
  = false /\
  forall Sprintf Next g,
    error_Error Sprintf Next g (fst (lazyerrors.New at_ h stack s))
    = error_Error Sprintf Next g
        (fst (lazyerrors.New at_ (snd (lazyerrors.New at_ h stack s)) stack s)).
Proof.
  unfold lazyerrors.New, errors.New. cbv beta iota. cbn [fst snd].
  assert (E1 : Pos.eqb h (Pos.succ h) = false)
    by (apply Pos.eqb_neq, Pos.succ_discr).
  assert (E2 : Pos.eqb (Pos.succ h) h = false)
    by (apply Pos.eqb_neq; intros E; now apply (Pos.succ_discr h)).
  repeat apply conj.
  - unfold lazyerrors.Is, errors.Is.
    cbn [is_nil orb errors.is_ errors.equal andb lazyerror.Unwrap].
    now rewrite E1.
  - unfold lazyerrors.Is, errors.Is.
    cbn [is_nil orb errors.is_ errors.equal andb lazyerror.Unwrap].
    now rewrite E2.
  - intros Sprintf Next g. apply render_congruence. reflexivity.
Qed.
